(** * The granth ingestion pipeline: a shallow embedding and its properties

    Sources embedded here:
    - [scripts/index_granth_from_db_ocr500.mjs]   (rasterise + OCR variant)
    - [scripts/index_granth_from_db.mjs]          (in-process extractor variant)
    - the pdftotext streaming variant and the manifest-driven indexer
    - [parseCsvRows] of the CSV viewer page.

    JavaScript strings are sequences of UTF-16 code units; they are modelled
    as [list N].  A value that may be [null] or [undefined] is an [option]. *)

From stdpp Require Import gmap list sorting strings.
From Stdlib Require Import NArith Lia.

Local Open Scope N_scope.
Local Open Scope list_scope.

(** ** JavaScript strings *)

Abbreviation jschar := N (only parsing).
Abbreviation jsstring := (list N) (only parsing).

Module Js.

(** A string literal of the source, as code units (ASCII only). *)
Definition lit (s : string) : jsstring :=
  Ascii.N_of_ascii <$> String.list_ascii_of_string s.

Definition NUL : jschar := 0.
Definition TAB : jschar := 9.
Definition LF : jschar := 10.
Definition FF : jschar := 12.
Definition CR : jschar := 13.
Definition DQUOTE : jschar := 34.
Definition COMMA : jschar := 44.
Definition BOM : jschar := 65279.

(** The characters matched by [\s] in a regular expression and removed by
    [String.prototype.trim]: WhiteSpace and LineTerminator of ECMAScript. *)
Definition isWhiteSpace (c : jschar) : bool :=
  ((9 <=? c) && (c <=? 13)) || (c =? 32) || (c =? 160) || (c =? 5760)
  || ((8192 <=? c) && (c <=? 8202)) || (c =? 8232) || (c =? 8233)
  || (c =? 8239) || (c =? 8287) || (c =? 12288) || (c =? 65279).

Fixpoint trimStart (s : jsstring) : jsstring :=
  match s with
  | [] => []
  | c :: r => if isWhiteSpace c then trimStart r else s
  end.

Definition trimEnd (s : jsstring) : jsstring :=
  reverse (trimStart (reverse s)).

(** [s.trim()] *)
Definition trim (s : jsstring) : jsstring := trimEnd (trimStart s).

(** [s.replace(/\s+/g, empty)]: every white-space character is deleted. *)
Definition stripWhiteSpace (s : jsstring) : jsstring :=
  filter (λ c, negb (isWhiteSpace c)) s.

(** Truthiness of a nullable string: [null], [undefined] and the empty
    string are falsy. *)
Definition truthy (v : option jsstring) : bool :=
  match v with
  | Some (_ :: _) => true
  | _ => false
  end.

(** [a || b] on nullable strings. *)
Definition or_else (a b : option jsstring) : option jsstring :=
  if truthy a then a else b.

(** Decimal rendering of a non-negative integer, as [String(n)] gives it. *)
Fixpoint decimal_go (fuel : nat) (n : N) (acc : jsstring) : jsstring :=
  match fuel with
  | O => acc
  | S f =>
      let acc' := (48 + n mod 10) :: acc in
      if n / 10 =? 0 then acc' else decimal_go f (n / 10) acc'
  end.

Definition decimal (n : N) : jsstring :=
  decimal_go (S (N.to_nat (N.log2 n))) n [].

Arguments lit : simpl never.
Arguments decimal : simpl never.
Arguments trim : simpl never.
Arguments isWhiteSpace : simpl never.

End Js.

(** ** Text normalisation ([normalizeText], [hasMeaningfulText]) *)

Module Text.
Import Js.

(** The first [replace]: every NUL is deleted. *)
Definition dropNul (s : jsstring) : jsstring := filter (λ c, c ≠ NUL) s.

(** The second [replace]: form feed becomes line feed. *)
Definition ffToLf (s : jsstring) : jsstring :=
  (λ c, if c =? FF then LF else c) <$> s.

(** The third [replace]: CR LF becomes LF, left to right, non-overlapping. *)
Fixpoint crlfToLf (s : jsstring) : jsstring :=
  match s with
  | [] => []
  | c :: r =>
      if c =? CR then
        match r with
        | c' :: r' => if c' =? LF then LF :: crlfToLf r' else c :: crlfToLf r
        | [] => c :: crlfToLf r
        end
      else c :: crlfToLf r
  end.

(** The fourth [replace]: every remaining CR becomes LF. *)
Definition crToLf (s : jsstring) : jsstring :=
  (λ c, if c =? CR then LF else c) <$> s.

(** [normalizeText(raw)]: a nullish [raw] reads as the empty string; then the four
    replacements and [trim]. *)
Definition normalizeText (raw : option jsstring) : jsstring :=
  trim (crToLf (crlfToLf (ffToLf (dropNul (default [] raw))))).

(** The number of non-white-space code units: the length of the text once
    its white space is deleted. *)
Definition nonSpaceChars (s : jsstring) : nat := length (stripWhiteSpace s).

(** [hasMeaningfulText(text)] of the OCR and pdftotext variants. *)
Definition hasMeaningfulText (text : option jsstring) : bool :=
  bool_decide (0 < nonSpaceChars (normalizeText text))%nat.

(** [hasMeaningfulText(t)] of the base variant: no normalisation. *)
Definition hasMeaningfulText_db (t : option jsstring) : bool :=
  bool_decide (0 < nonSpaceChars (default [] t))%nat.

Arguments normalizeText : simpl never.
Arguments nonSpaceChars : simpl never.
Arguments hasMeaningfulText : simpl never.
Arguments hasMeaningfulText_db : simpl never.

End Text.

(** ** Facts about trimming and normalisation *)

Module TextFacts.
Import Js Text.

Lemma trimStart_length s : (length (trimStart s) ≤ length s)%nat.
Proof.
  induction s as [|c r IH]; simpl; [lia|].
  destruct (isWhiteSpace c); simpl; lia.
Qed.

Lemma trimStart_idemp s : trimStart (trimStart s) = trimStart s.
Proof.
  induction s as [|c r IH]; simpl; [done|].
  destruct (isWhiteSpace c) eqn:Hc; [done|]. simpl. by rewrite Hc.
Qed.

Lemma trimStart_Forall (P : jschar → Prop) s :
  Forall P s → Forall P (trimStart s).
Proof.
  induction 1 as [|c r Hc Hr IH]; simpl; [constructor|].
  destruct (isWhiteSpace c); [done|by constructor].
Qed.

Lemma trimStart_snoc s c :
  isWhiteSpace c = false → trimStart (s ++ [c]) = trimStart s ++ [c].
Proof.
  intros Hc. induction s as [|d r IH]; simpl.
  - by rewrite Hc.
  - destruct (isWhiteSpace d); [done|done].
Qed.

(** A string fixed by [trimStart] is empty or starts with a visible character. *)
Lemma trimStart_fixed_head c r :
  trimStart (c :: r) = c :: r → isWhiteSpace c = false.
Proof.
  simpl. destruct (isWhiteSpace c); [|done].
  intros H. pose proof (trimStart_length r) as Hl.
  rewrite H in Hl. simpl in Hl. lia.
Qed.

Lemma trimEnd_idemp s : trimEnd (trimEnd s) = trimEnd s.
Proof.
  unfold trimEnd. by rewrite reverse_involutive, trimStart_idemp.
Qed.

Lemma trimEnd_keeps_start s :
  trimStart s = s → trimStart (trimEnd s) = trimEnd s.
Proof.
  destruct s as [|c r]; [done|].
  intros Hfix. pose proof (trimStart_fixed_head _ _ Hfix) as Hc.
  unfold trimEnd. rewrite reverse_cons, (trimStart_snoc _ _ Hc).
  rewrite reverse_app. simpl. by rewrite Hc.
Qed.

Lemma trim_idemp s : trim (trim s) = trim s.
Proof.
  unfold trim.
  rewrite (trimEnd_keeps_start (trimStart s)) by apply trimStart_idemp.
  apply trimEnd_idemp.
Qed.

Lemma trim_Forall (P : jschar → Prop) s : Forall P s → Forall P (trim s).
Proof.
  intros H. unfold trim, trimEnd.
  apply Forall_reverse, trimStart_Forall, Forall_reverse.
  by apply trimStart_Forall.
Qed.

(** Characters that none of the four replacements touches. *)
Definition plain (c : jschar) : Prop := c ≠ NUL ∧ c ≠ FF ∧ c ≠ CR.

Lemma crlfToLf_Forall (P : jschar → Prop) s :
  P LF → Forall P s → Forall P (crlfToLf s).
Proof.
  intros HLF. induction 1 as [|c r Hc Hr IH]; simpl; [constructor|].
  destruct (c =? CR) eqn:E; [|by constructor].
  destruct r as [|c' r']; [by constructor|].
  destruct (c' =? LF) eqn:E'; [|by constructor].
  constructor; [done|].
  simpl in IH. apply N.eqb_eq in E'. subst c'.
  change (LF =? CR) with false in IH. by inversion IH.
Qed.

Lemma crlfToLf_no_CR s : Forall (λ c, c ≠ CR) s → crlfToLf s = s.
Proof.
  induction 1 as [|c r Hc Hr IH]; simpl; [done|].
  apply N.eqb_neq in Hc. rewrite Hc. by rewrite IH.
Qed.

Lemma replacements_plain s :
  Forall plain (crToLf (crlfToLf (ffToLf (dropNul s)))).
Proof.
  assert (H1 : Forall (λ c, c ≠ NUL) (dropNul s)).
  { unfold dropNul. apply Forall_forall. intros c Hc.
    by apply list_elem_of_filter in Hc as [? _]. }
  assert (H2 : Forall (λ c, c ≠ NUL ∧ c ≠ FF) (ffToLf (dropNul s))).
  { unfold ffToLf. apply Forall_fmap. eapply Forall_impl; [exact H1|].
    intros c Hc. simpl. destruct (c =? FF) eqn:E.
    - done.
    - apply N.eqb_neq in E. done. }
  assert (H3 : Forall (λ c, c ≠ NUL ∧ c ≠ FF) (crlfToLf (ffToLf (dropNul s)))).
  { apply crlfToLf_Forall; done. }
  unfold crToLf. apply Forall_fmap. eapply Forall_impl; [exact H3|].
  intros c [Hn Hf]. simpl. unfold plain. destruct (c =? CR) eqn:E.
  - done.
  - apply N.eqb_neq in E. done.
Qed.

Lemma replacements_fixed s :
  Forall plain s → crToLf (crlfToLf (ffToLf (dropNul s))) = s.
Proof.
  intros H.
  assert (E1 : dropNul s = s).
  { unfold dropNul. induction H as [|c r [Hc _] Hr IH]; [done|].
    rewrite filter_cons_True by done. by rewrite IH. }
  assert (E2 : ffToLf s = s).
  { clear E1. unfold ffToLf. induction H as [|c r (_ & Hc & _) Hr IH]; [done|].
    rewrite fmap_cons. apply N.eqb_neq in Hc. rewrite Hc. by rewrite IH. }
  assert (E3 : crlfToLf s = s).
  { apply crlfToLf_no_CR. eapply Forall_impl; [exact H|]. by intros c (_ & _ & ?). }
  assert (E4 : crToLf s = s).
  { clear E1 E2 E3. unfold crToLf.
    induction H as [|c r (_ & _ & Hc) Hr IH]; [done|].
    rewrite fmap_cons. apply N.eqb_neq in Hc. rewrite Hc. by rewrite IH. }
  by rewrite E1, E2, E3, E4.
Qed.

Lemma normalizeText_plain raw : Forall plain (normalizeText raw).
Proof. unfold normalizeText. apply trim_Forall, replacements_plain. Qed.

Lemma normalizeText_fixed s :
  Forall plain s → trim s = s → normalizeText (Some s) = s.
Proof.
  intros Hp Ht. unfold normalizeText. simpl. by rewrite replacements_fixed.
Qed.

Lemma normalizeText_twice raw :
  normalizeText (Some (normalizeText raw)) = normalizeText raw.
Proof.
  apply normalizeText_fixed; [apply normalizeText_plain|].
  unfold normalizeText. apply trim_idemp.
Qed.

Lemma hasMeaningfulText_normalized raw :
  hasMeaningfulText (Some (normalizeText raw)) = hasMeaningfulText raw.
Proof. unfold hasMeaningfulText. by rewrite normalizeText_twice. Qed.

(** C9: [normalizeText] is idempotent, and [hasMeaningfulText] answers the
    same on a raw text and on its normalisation. *)
Theorem normalizeText_idempotent (raw : option jsstring) :
  normalizeText (Some (normalizeText raw)) = normalizeText raw
  ∧ hasMeaningfulText (Some (normalizeText raw)) = hasMeaningfulText raw.
Proof.
  split; [apply normalizeText_twice|apply hasMeaningfulText_normalized].
Qed.

End TextFacts.

(** ** CSV: [csvEscape] of the indexers and [parseCsvRows] of the viewer *)

Module Csv.
Import Js.

(** The character class of the regular expression tested by [csvEscape]:
    double quote, comma, line feed, carriage return. *)
Definition isSpecial (c : jschar) : bool :=
  (c =? DQUOTE) || (c =? COMMA) || (c =? LF) || (c =? CR).

(** The regular-expression test of [csvEscape]: some character of [s] is
    in the class. *)
Definition needsQuoting (s : jsstring) : bool := existsb isSpecial s.

(** The [replaceAll] of [csvEscape]: every double quote is doubled. *)
Definition doubleQuotes (s : jsstring) : jsstring :=
  s ≫= (λ c, if c =? DQUOTE then [DQUOTE; DQUOTE] else [c]).

(** [csvEscape(value)]: [null]/[undefined] become the empty string. *)
Definition csvEscape (value : option jsstring) : jsstring :=
  let s := default [] value in
  if needsQuoting s then DQUOTE :: doubleQuotes s ++ [DQUOTE] else s.

(** The parser's local variables [rows], [row], [field], [inQuotes]. *)
Record pstate := PState {
  rows : list (list jsstring);
  row : list jsstring;
  field : jsstring;
  inQuotes : bool
}.

(** [field += ch] *)
Definition addChar (st : pstate) (ch : jschar) : pstate :=
  PState (rows st) (row st) (field st ++ [ch]) (inQuotes st).

Definition setInQuotes (st : pstate) (b : bool) : pstate :=
  PState (rows st) (row st) (field st) b.

(** [row.push(field)], then [field] is reset to the empty string. *)
Definition endField (st : pstate) : pstate :=
  PState (rows st) (row st ++ [field st]) [] (inQuotes st).

(** [row.push(field); rows.push(row); row = []], and [field] is reset. *)
Definition endRow (st : pstate) : pstate :=
  PState (rows st ++ [row st ++ [field st]]) [] [] (inQuotes st).

(** The [for] loop of [parseCsvRows]; the look-ahead [csv[i + 1]] is the
    head of the remaining input, and [i += 1] skips it. *)
Fixpoint scan (csv : jsstring) (st : pstate) : pstate :=
  match csv with
  | [] => st
  | ch :: rest =>
      if inQuotes st then
        if ch =? DQUOTE then
          match rest with
          | ch' :: rest' =>
              if ch' =? DQUOTE then scan rest' (addChar st DQUOTE)
              else scan rest (setInQuotes st false)
          | [] => scan rest (setInQuotes st false)
          end
        else scan rest (addChar st ch)
      else if ch =? DQUOTE then scan rest (setInQuotes st true)
      else if ch =? COMMA then scan rest (endField st)
      else if ch =? LF then scan rest (endRow st)
      else if ch =? CR then
        match rest with
        | ch' :: rest' =>
            if ch' =? LF then scan rest' (endRow st) else scan rest (endRow st)
        | [] => scan rest (endRow st)
        end
      else scan rest (addChar st ch)
  end.

(** [input.charCodeAt(0) === 0xfeff ? input.slice(1) : input] *)
Definition stripBom (input : jsstring) : jsstring :=
  match input with
  | c :: r => if c =? BOM then r else input
  | [] => input
  end.

(** The flush after the loop: [if (field.length > 0 || row.length > 0)]. *)
Definition flush (st : pstate) : list (list jsstring) :=
  if bool_decide (0 < length (field st))%nat || bool_decide (0 < length (row st))%nat
  then rows st ++ [row st ++ [field st]]
  else rows st.

(** [parseCsvRows(input)] *)
Definition parseCsvRows (input : jsstring) : list (list jsstring) :=
  filter (λ r, r ≠ [[]]) (flush (scan (stripBom input) (PState [] [] [] false))).

(** [fields.join] with a comma as separator. *)
Fixpoint joinComma (fields : list jsstring) : jsstring :=
  match fields with
  | [] => []
  | [f] => f
  | f :: fs => f ++ COMMA :: joinComma fs
  end.

(** A page row of the artifact. *)
Record page := Page { page_number : N; text : jsstring }.

Definition header : jsstring :=
  lit "pdf_name,custom_id,pdf_url,page_number,text" ++ [LF].

(** One data line: the five columns joined by commas, then a newline. *)
Definition csvLine (pdfName customId pdfUrl : jsstring) (p : page) : jsstring :=
  joinComma [csvEscape (Some pdfName); csvEscape (Some customId);
             csvEscape (Some pdfUrl); decimal (page_number p);
             csvEscape (Some (text p))] ++ [LF].

(** The artifact: header, then one line per stored page, in list order. *)
Definition buildCsv (pdfName customId pdfUrl : jsstring) (pages : list page)
  : jsstring :=
  header ++ concat (csvLine pdfName customId pdfUrl <$> pages).

End Csv.

(** ** The parser undoes the escaping *)

Module CsvFacts.
Import Js Csv.

(** [field += s], character by character. *)
Definition addChars (st : pstate) (s : jsstring) : pstate :=
  PState (rows st) (row st) (field st ++ s) (inQuotes st).

Lemma addChars_nil st : addChars st [] = st.
Proof. destruct st. unfold addChars. simpl. by rewrite app_nil_r. Qed.

Lemma addChars_cons st c s : addChars (addChar st c) s = addChars st (c :: s).
Proof. unfold addChars, addChar. simpl. by rewrite <- app_assoc. Qed.

Lemma isSpecial_false c :
  isSpecial c = false →
  (c =? DQUOTE) = false ∧ (c =? COMMA) = false
  ∧ (c =? LF) = false ∧ (c =? CR) = false.
Proof.
  unfold isSpecial. intros H.
  repeat (apply orb_false_iff in H as [H ?]). done.
Qed.

Lemma needsQuoting_false s :
  needsQuoting s = false ↔ Forall (λ c, isSpecial c = false) s.
Proof.
  unfold needsQuoting. induction s as [|c r IH]; simpl.
  - split; [constructor|done].
  - rewrite orb_false_iff, IH. split.
    + intros [? ?]. by constructor.
    + by inversion 1.
Qed.

(** An unquoted run of ordinary characters is appended to the field. *)
Lemma scan_plain s tail st :
  Forall (λ c, isSpecial c = false) s → inQuotes st = false →
  scan (s ++ tail) st = scan tail (addChars st s).
Proof.
  intros Hs. revert st. induction Hs as [|c r Hc Hr IH]; intros st Hq.
  - by rewrite addChars_nil.
  - apply isSpecial_false in Hc as (H1 & H2 & H3 & H4).
    simpl. rewrite Hq, H1, H2, H3, H4.
    rewrite IH by done. by rewrite addChars_cons.
Qed.

(** Inside quotes, the doubled text followed by the closing quote yields
    the text, provided the input does not go on with another quote. *)
Lemma scan_quoted s tail st :
  inQuotes st = true → head tail ≠ Some DQUOTE →
  scan (doubleQuotes s ++ DQUOTE :: tail) st
  = scan tail (setInQuotes (addChars st s) false).
Proof.
  intros Hq Ht. revert st Hq. induction s as [|c r IH]; intros st Hq.
  - simpl. rewrite Hq. change (DQUOTE =? DQUOTE) with true. cbv iota.
    rewrite addChars_nil. destruct tail as [|c' t']; [done|].
    destruct (c' =? DQUOTE) eqn:E; [|done].
    apply N.eqb_eq in E. subst c'. by destruct Ht.
  - unfold doubleQuotes. rewrite bind_cons. fold (doubleQuotes r).
    destruct (c =? DQUOTE) eqn:E.
    + apply N.eqb_eq in E. subst c. simpl. rewrite Hq.
      change (DQUOTE =? DQUOTE) with true. cbv iota.
      rewrite IH by done. by rewrite addChars_cons.
    + simpl. rewrite Hq, E. rewrite IH by done. by rewrite addChars_cons.
Qed.

(** An escaped field, read from outside quotes, is appended to the field
    being collected. *)
Lemma scan_csvEscape s tail st :
  inQuotes st = false → head tail ≠ Some DQUOTE →
  scan (csvEscape (Some s) ++ tail) st = scan tail (addChars st s).
Proof.
  intros Hq Ht. unfold csvEscape. simpl.
  destruct (needsQuoting s) eqn:E.
  - simpl. rewrite Hq. change (DQUOTE =? DQUOTE) with true. cbv iota.
    rewrite <- app_assoc. simpl. rewrite scan_quoted by done.
    destruct st as [rs r f q]. simpl in Hq. subst q. done.
  - apply scan_plain; [by apply needsQuoting_false|done].
Qed.

(** A record of escaped fields, closed by a line feed, adds one row. *)
Lemma scan_record fs tail rs r0 :
  fs ≠ [] →
  scan (joinComma ((λ f, csvEscape (Some f)) <$> fs) ++ LF :: tail)
       (PState rs r0 [] false)
  = scan tail (PState (rs ++ [r0 ++ fs]) [] [] false).
Proof.
  revert r0. induction fs as [|f fs IH]; intros r0 Hne; [done|].
  destruct fs as [|f' fs'].
  - simpl joinComma. rewrite scan_csvEscape by done. done.
  - change (joinComma ((λ f, csvEscape (Some f)) <$> f :: f' :: fs'))
      with (csvEscape (Some f) ++ COMMA
              :: joinComma ((λ f, csvEscape (Some f)) <$> f' :: fs')).
    rewrite <- app_assoc. rewrite scan_csvEscape by done.
    simpl app at 1. unfold addChars. simpl.
    change (scan (COMMA :: ?x) ?st) with (scan x (endField st)).
    unfold endField. simpl. rewrite IH by done.
    by rewrite <- app_assoc.
Qed.

(** Every character of a decimal rendering is a digit. *)
Lemma decimal_go_digits fuel n acc :
  Forall (λ c, 48 ≤ c ≤ 57) acc → Forall (λ c, 48 ≤ c ≤ 57) (decimal_go fuel n acc).
Proof.
  revert n acc. induction fuel as [|f IH]; intros n acc Hacc; simpl; [done|].
  assert (Hd : Forall (λ c, 48 ≤ c ≤ 57) ((48 + n mod 10) :: acc)).
  { constructor; [|done].
    assert (Hm : n mod 10 < 10) by (apply N.mod_upper_bound; lia).
    cbv beta. revert Hm. generalize (n mod 10). intros m Hm. lia. }
  destruct (n / 10 =? 0); [done|]. by apply IH.
Qed.

Lemma decimal_plain n : needsQuoting (decimal n) = false.
Proof.
  apply needsQuoting_false. unfold decimal.
  eapply Forall_impl; [apply decimal_go_digits; constructor|].
  intros c Hc. cbv beta in Hc. unfold isSpecial, DQUOTE, COMMA, LF, CR.
  repeat (apply orb_false_iff; split); apply N.eqb_neq; lia.
Qed.

Lemma csvEscape_decimal n : csvEscape (Some (decimal n)) = decimal n.
Proof. unfold csvEscape. simpl. by rewrite decimal_plain. Qed.

(** The five columns of a data row, as the viewer reads them back. *)
Definition columns (pdfName customId pdfUrl : jsstring) (p : page)
  : list jsstring :=
  [pdfName; customId; pdfUrl; decimal (page_number p); text p].

Definition headerColumns : list jsstring :=
  [lit "pdf_name"; lit "custom_id"; lit "pdf_url"; lit "page_number"; lit "text"].

Lemma csvLine_columns pdfName customId pdfUrl p :
  csvLine pdfName customId pdfUrl p
  = joinComma ((λ f, csvEscape (Some f)) <$> columns pdfName customId pdfUrl p)
    ++ [LF].
Proof. unfold csvLine, columns. simpl fmap. by rewrite csvEscape_decimal. Qed.

Lemma header_columns :
  header = joinComma ((λ f, csvEscape (Some f)) <$> headerColumns) ++ [LF].
Proof. reflexivity. Qed.

Lemma scan_lines pdfName customId pdfUrl pages tail rs :
  scan (concat (csvLine pdfName customId pdfUrl <$> pages) ++ tail)
       (PState rs [] [] false)
  = scan tail
      (PState (rs ++ (columns pdfName customId pdfUrl <$> pages)) [] [] false).
Proof.
  revert rs. induction pages as [|p ps IH]; intros rs.
  - simpl. by rewrite app_nil_r.
  - rewrite fmap_cons. simpl concat. rewrite csvLine_columns.
    rewrite <- !app_assoc. simpl app at 2.
    rewrite scan_record by done. rewrite IH.
    rewrite fmap_cons. simpl. by rewrite <- app_assoc.
Qed.

Lemma filter_keep_all {A} (P : A → Prop) `{∀ x, Decision (P x)} (l : list A) :
  Forall P l → filter P l = l.
Proof.
  induction 1 as [|x r Hx Hr IH]; [done|].
  rewrite filter_cons_True by done. by rewrite IH.
Qed.

(** The whole artifact reads back as the header row followed by the rows. *)
Lemma parse_buildCsv pdfName customId pdfUrl pages :
  parseCsvRows (buildCsv pdfName customId pdfUrl pages)
  = headerColumns :: (columns pdfName customId pdfUrl <$> pages).
Proof.
  unfold parseCsvRows, buildCsv.
  assert (Hb : ∀ x, stripBom (header ++ x) = header ++ x) by done.
  rewrite Hb, header_columns, <- app_assoc. simpl app at 2.
  rewrite scan_record by done.
  rewrite <- (app_nil_r (concat _)), scan_lines. simpl scan.
  unfold flush. simpl. apply filter_keep_all.
  constructor; [done|]. apply Forall_fmap, Forall_forall. by intros p _.
Qed.

(** A field parsed on its own comes back as a one-row, one-column table,
    unless it is empty or the viewer takes its first character for a
    byte-order mark. *)
Lemma parse_csvEscape_alone s :
  s ≠ [] → (needsQuoting s = true ∨ head s ≠ Some BOM) →
  parseCsvRows (csvEscape (Some s)) = [[s]].
Proof.
  intros Hne Hb. unfold parseCsvRows.
  assert (E : stripBom (csvEscape (Some s)) = csvEscape (Some s)).
  { unfold csvEscape. simpl. destruct (needsQuoting s) eqn:Eq; [done|].
    destruct Hb as [?|Hb]; [done|]. destruct s as [|c r]; [done|].
    simpl. destruct (c =? BOM) eqn:Ec; [|done].
    apply N.eqb_eq in Ec. subst c. by destruct Hb. }
  rewrite E, <- (app_nil_r (csvEscape _)), scan_csvEscape by done.
  simpl. unfold flush. simpl.
  destruct s as [|c r]; [done|]. simpl.
  rewrite filter_cons_True; [done|]. by intros [=].
Qed.

Lemma needsQuoting_true s :
  needsQuoting s = true
  ↔ ∃ c, c ∈ s ∧ (c = DQUOTE ∨ c = COMMA ∨ c = LF ∨ c = CR).
Proof.
  unfold needsQuoting. rewrite existsb_exists. split.
  - intros (c & Hin & Hc). exists c. split; [by apply list_elem_of_In|].
    unfold isSpecial in Hc.
    repeat (apply orb_true_iff in Hc as [Hc|Hc]); apply N.eqb_eq in Hc; auto.
  - intros (c & Hin & Hc). exists c. split; [by apply list_elem_of_In|].
    unfold isSpecial. destruct Hc as [-> | [-> | [-> | ->]]]; done.
Qed.

Lemma needsQuoting_nonempty s : needsQuoting s = true → s ≠ [].
Proof. by destruct s. Qed.

(** C2, as amended.  [csvEscape] wraps a field in quotes exactly when it
    contains a double quote, a comma, a line feed or a carriage return, and
    then doubles its double quotes; otherwise the field is left as it is.
    Every field that needs quoting is read back exactly by [parseCsvRows],
    and so is every non-empty field that does not start with U+FEFF; inside
    an artifact (header line, then five-column rows) every field of every
    row is read back exactly, whatever its content. *)
Theorem csvEscape_parse_roundtrip :
  (∀ s : jsstring,
     (csvEscape (Some s) = DQUOTE :: doubleQuotes s ++ [DQUOTE]
      ↔ ∃ c, c ∈ s ∧ (c = DQUOTE ∨ c = COMMA ∨ c = LF ∨ c = CR))
     ∧ ((¬ ∃ c, c ∈ s ∧ (c = DQUOTE ∨ c = COMMA ∨ c = LF ∨ c = CR))
        → csvEscape (Some s) = s))
  ∧ (∀ s : jsstring, needsQuoting s = true →
       parseCsvRows (csvEscape (Some s)) = [[s]])
  ∧ (∀ s : jsstring, s ≠ [] → head s ≠ Some BOM →
       parseCsvRows (csvEscape (Some s)) = [[s]])
  ∧ (∀ (pdfName customId pdfUrl : jsstring) (pages : list page),
       parseCsvRows (buildCsv pdfName customId pdfUrl pages)
       = headerColumns :: (columns pdfName customId pdfUrl <$> pages)).
Proof.
  split; [|split; [|split]].
  - intros s. rewrite <- needsQuoting_true. unfold csvEscape. simpl.
    destruct (needsQuoting s) eqn:E.
    + split; [done|]. intros H. by destruct H.
    + split; [|done]. split; [|done]. intros H. exfalso.
      apply needsQuoting_false in E.
      assert (Hin : DQUOTE ∈ s) by (rewrite H; apply list_elem_of_here).
      rewrite Forall_forall in E. by specialize (E _ Hin).
  - intros s H. apply parse_csvEscape_alone; [by apply needsQuoting_nonempty|auto].
  - intros s H1 H2. apply parse_csvEscape_alone; auto.
  - apply parse_buildCsv.
Qed.

(** The round trip at work: a field with a comma, a quote and a CR LF. *)
Lemma csvEscape_parse_roundtrip_witness :
  parseCsvRows (csvEscape (Some (lit "a,b" ++ [DQUOTE; CR; LF] ++ lit "c")))
  = [[lit "a,b" ++ [DQUOTE; CR; LF] ++ lit "c"]]
  ∧ parseCsvRows (csvEscape (Some (lit "plain"))) = [[lit "plain"]].
Proof.
  split.
  - apply (proj1 (proj2 csvEscape_parse_roundtrip)). reflexivity.
  - apply (proj1 (proj2 (proj2 csvEscape_parse_roundtrip))); by vm_compute.
Defined.

(** C2 as stated fails on a field parsed alone: the empty field yields no
    row at all, and a leading U+FEFF is taken for a byte-order mark. *)
Lemma csvEscape_parse_counterexample :
  parseCsvRows (csvEscape (Some [])) = []
  ∧ parseCsvRows (csvEscape (Some (BOM :: lit "A"))) = [[lit "A"]]
  ∧ ¬ (∀ s : jsstring, parseCsvRows (csvEscape (Some s)) = [[s]]).
Proof.
  split; [reflexivity|]. split; [reflexivity|].
  intros H. specialize (H []). by vm_compute in H.
Qed.

(** A lone carriage return also makes [csvEscape] wrap the field. *)
Example csvEscape_wraps_CR :
  csvEscape (Some (lit "a" ++ [CR] ++ lit "b"))
  = [DQUOTE] ++ lit "a" ++ [CR] ++ lit "b" ++ [DQUOTE].
Proof. reflexivity. Qed.

End CsvFacts.

(** ** The catalog scan and the work set *)

Module Catalog.
Import Js.

(** A row of the source table, with the columns the indexers select. *)
Record sourceFile := SourceFile {
  id : N;
  ufs_url : option jsstring;
  ut_key : option jsstring;
  file_name : option jsstring;
  file_size : option N;
  custom_id : option jsstring;
  original_rel_path : option jsstring;
  collection : option jsstring;
  subcollection : option jsstring
}.

#[global] Instance sourceFile_eq_dec : EqDecision sourceFile.
Proof. solve_decision. Defined.

(** [sourceFiles.filter((f) => f.ufs_url)] *)
Definition withUrl (sourceFiles : list sourceFile) : list sourceFile :=
  filter (λ f, truthy (ufs_url f)) sourceFiles.

(** [file.custom_id || file.ut_key], the identity the filter looks up. *)
Definition identity (file : sourceFile) : option jsstring :=
  or_else (custom_id file) (ut_key file).

(** The callback of [withUrl.filter(...)]:
    [if (args.reprocess) return true;]
    [if (!identity) return true;]
    [return !processedIds.has(String(identity));] *)
Definition keep (reprocess : bool) (processedIds : gset jsstring)
    (file : sourceFile) : bool :=
  if reprocess then true
  else if negb (truthy (identity file)) then true
  else negb (bool_decide (default [] (identity file) ∈ processedIds)).

(** [filtered], the work set of the OCR and pdftotext variants. *)
Definition filtered (reprocess : bool) (processedIds : gset jsstring)
    (sourceFiles : list sourceFile) : list sourceFile :=
  filter (λ f, keep reprocess processedIds f) (withUrl sourceFiles).

(** [processedIds] is fetched only without [--reprocess]; otherwise it stays
    the empty set. *)
Definition workSet (reprocess : bool) (fetched : gset jsstring)
    (sourceFiles : list sourceFile) : list sourceFile :=
  filtered reprocess (if reprocess then ∅ else fetched) sourceFiles.

(** [queue] of the base variant: no URL filter, and the look-up key is
    [f.custom_id] alone, the empty string standing for a missing one. *)
Definition queue_db (reprocess : bool) (processedIds : gset jsstring)
    (sourceFiles : list sourceFile) : list sourceFile :=
  filter (λ f, reprocess
               || negb (bool_decide
                    (default [] (or_else (custom_id f) (Some [])) ∈ processedIds)))
         sourceFiles.

(** [batch = filtered.slice(start, end)] with
    [start = min(startAt, length)] and
    [end = limit == null ? length : min(length, start + limit)]. *)
Definition batch (startAt : nat) (limit : option nat)
    (filtered : list sourceFile) : list sourceFile :=
  let start := (startAt `min` length filtered)%nat in
  let end_ := match limit with
              | None => length filtered
              | Some l => (length filtered `min` (start + l))%nat
              end in
  take (end_ - start)%nat (drop start filtered).

(** The worker's identity:
    [file.custom_id || file.ut_key || `granth_${file.id}`]. *)
Definition customId (file : sourceFile) : jsstring :=
  default []
    (or_else (or_else (custom_id file) (ut_key file))
             (Some (lit "granth_" ++ decimal (id file)))).

(** [file.file_name || `file_${file.id}.pdf`] *)
Definition pdfName (file : sourceFile) : jsstring :=
  default []
    (or_else (file_name file)
             (Some (lit "file_" ++ decimal (id file) ++ lit ".pdf"))).

(** [docPayload], the columns every status write of a worker carries. *)
Record docPayload := DocPayload {
  p_original_relative_path : option jsstring;
  p_custom_id : jsstring;
  p_pdf_name : jsstring;
  p_pdf_url : option jsstring;
  p_size_bytes : option N;
  p_modified_time_iso : option jsstring
}.

Definition payloadOf (file : sourceFile) : docPayload :=
  DocPayload
    (if truthy (original_rel_path file) then original_rel_path file else None)
    (customId file)
    (pdfName file)
    (ufs_url file)
    (match file_size file with Some 0 => None | s => s end)
    None.

End Catalog.

(** ** What the work set keeps and what it drops *)

Module CatalogFacts.
Import Js Catalog.

(** A row carries a look-up identity when [custom_id || ut_key] is truthy. *)
Definition hasIdentity (f : sourceFile) : Prop := truthy (identity f) = true.

Lemma keep_spec reprocess processedIds f :
  keep reprocess processedIds f = true
  ↔ reprocess = true
    ∨ ¬ (hasIdentity f ∧ default [] (identity f) ∈ processedIds).
Proof.
  unfold keep, hasIdentity. destruct reprocess; [split; auto|].
  destruct (truthy (identity f)); simpl.
  - rewrite negb_true_iff, bool_decide_eq_false. split.
    + intros H. right. by intros [_ ?].
    + intros [?|H]; [done|]. intros ?. by apply H.
  - split; [|done]. intros _. right. by intros [? _].
Qed.

Lemma elem_of_withUrl f sourceFiles :
  f ∈ withUrl sourceFiles ↔ f ∈ sourceFiles ∧ truthy (ufs_url f) = true.
Proof.
  unfold withUrl. rewrite list_elem_of_filter, Is_true_true. tauto.
Qed.

Lemma elem_of_filtered reprocess processedIds f sourceFiles :
  f ∈ filtered reprocess processedIds sourceFiles
  ↔ f ∈ sourceFiles ∧ truthy (ufs_url f) = true
    ∧ keep reprocess processedIds f = true.
Proof.
  unfold filtered.
  rewrite list_elem_of_filter, elem_of_withUrl, Is_true_true. tauto.
Qed.

(** C1, as amended.  Without [--reprocess] the work set consists of the
    catalog rows with a usable URL whose look-up identity
    ([custom_id], else [ut_key]) is missing or not in the processed set;
    with [--reprocess] it consists of all rows with a usable URL, whether
    they carry an identity or not.  Catalog order is kept. *)
Theorem workSet_characterised
    (sourceFiles : list sourceFile) (processedIds : gset jsstring)
    (f : sourceFile) :
  (f ∈ filtered false processedIds sourceFiles
   ↔ f ∈ sourceFiles ∧ truthy (ufs_url f) = true
     ∧ ¬ (hasIdentity f ∧ default [] (identity f) ∈ processedIds))
  ∧ (f ∈ filtered true processedIds sourceFiles
     ↔ f ∈ sourceFiles ∧ truthy (ufs_url f) = true)
  ∧ (f ∈ workSet true processedIds sourceFiles
     ↔ f ∈ sourceFiles ∧ truthy (ufs_url f) = true)
  ∧ filtered false processedIds sourceFiles `sublist_of` sourceFiles
  ∧ filtered true processedIds sourceFiles `sublist_of` sourceFiles.
Proof.
  assert (Hsub : ∀ r, filtered r processedIds sourceFiles `sublist_of` sourceFiles).
  { intros r. unfold filtered, withUrl.
    etrans; apply sublist_filter. }
  unfold workSet. rewrite !elem_of_filtered, !keep_spec.
  repeat split; try apply Hsub; intuition congruence.
Qed.

Definition row_no_identity : sourceFile :=
  SourceFile 5 (Some (lit "http://x/a.pdf")) None None None None None None None.

(** C1 as stated fails on a row with neither [custom_id] nor [ut_key]: with
    [--reprocess] it is returned although it has no identity, and without
    it is kept although the identity its worker uses is in the processed
    set. *)
Lemma workSet_counterexample :
  identity row_no_identity = None
  ∧ filtered true ∅ [row_no_identity] = [row_no_identity]
  ∧ customId row_no_identity = lit "granth_5"
  ∧ lit "granth_5" ∈ ({[ lit "granth_5" ]} : gset jsstring)
  ∧ filtered false {[ lit "granth_5" ]} [row_no_identity] = [row_no_identity].
Proof.
  split; [reflexivity|]. split; [reflexivity|]. split; [reflexivity|].
  split; [set_solver|]. reflexivity.
Qed.

Definition row_ut_key_only : sourceFile :=
  SourceFile 7 (Some (lit "http://x/b.pdf")) (Some (lit "K")) None None None
             None None None.

(** The base variant looks up [custom_id] alone: a row whose identity comes
    from [ut_key] stays in its queue after it has been processed, while the
    other variants drop it. *)
Example queue_db_ignores_ut_key :
  customId row_ut_key_only = lit "K"
  ∧ queue_db false {[ lit "K" ]} [row_ut_key_only] = [row_ut_key_only]
  ∧ filtered false {[ lit "K" ]} [row_ut_key_only] = [].
Proof. split; [reflexivity|]. split; reflexivity. Qed.

(** C10: a row with neither [custom_id] nor [ut_key] passes the filter
    whatever the processed set and the [--reprocess] flag are, so it is in
    the work set exactly when it is among the rows with a URL; its worker
    uses the identity [granth_<id>], and that is the [custom_id] of every
    status write. *)
Theorem no_identity_row_always_kept
    (sourceFiles : list sourceFile) (processedIds : gset jsstring)
    (reprocess : bool) (f : sourceFile) :
  truthy (custom_id f) = false → truthy (ut_key f) = false →
  keep reprocess processedIds f = true
  ∧ (f ∈ filtered reprocess processedIds sourceFiles ↔ f ∈ withUrl sourceFiles)
  ∧ customId f = lit "granth_" ++ decimal (id f)
  ∧ p_custom_id (payloadOf f) = lit "granth_" ++ decimal (id f).
Proof.
  intros Hc Hu.
  assert (Hid : truthy (identity f) = false).
  { unfold identity, or_else. by rewrite Hc. }
  assert (Hk : keep reprocess processedIds f = true).
  { unfold keep. rewrite Hid. by destruct reprocess. }
  assert (Hcid : customId f = lit "granth_" ++ decimal (id f)).
  { unfold customId. fold (identity f). unfold or_else at 1. by rewrite Hid. }
  split; [done|]. split; [|done].
  rewrite elem_of_filtered, elem_of_withUrl. tauto.
Qed.

Lemma no_identity_row_always_kept_witness :
  keep false {[ lit "granth_5" ]} row_no_identity = true
  ∧ (row_no_identity ∈ filtered false {[ lit "granth_5" ]} [row_no_identity]
     ↔ row_no_identity ∈ withUrl [row_no_identity])
  ∧ customId row_no_identity = lit "granth_" ++ decimal 5
  ∧ p_custom_id (payloadOf row_no_identity) = lit "granth_" ++ decimal 5.
Proof.
  apply (no_identity_row_always_kept [row_no_identity] {[ lit "granth_5" ]}
           false row_no_identity); reflexivity.
Defined.

End CatalogFacts.

(** ** The [documents] table and the status writes *)

Module Status.
Import Js Catalog.

Inductive status := Pending | Processed | Failed.

#[global] Instance status_eq_dec : EqDecision status.
Proof. solve_decision. Defined.

(** A row of [documents]; the key [custom_id] is the key of the map. *)
Record document := Document {
  original_relative_path : option jsstring;
  pdf_name : option jsstring;
  pdf_url : option jsstring;
  size_bytes : option N;
  modified_time_iso : option jsstring;
  doc_status : status;
  error : option jsstring;
  csv_url : option jsstring;
  csv_key : option jsstring;
  updated_at : jsstring
}.

(** The object handed to [upsert]: the payload columns, [status], [error]
    and [updated_at] are always present; [csv_url] and [csv_key] are present
    only in the manifest-driven indexer, where [Some None] is an explicit
    [null]. *)
Record upsertValues := UpsertValues {
  v_payload : docPayload;
  v_status : status;
  v_error : option jsstring;
  v_csv_url : option (option jsstring);
  v_csv_key : option (option jsstring);
  v_updated_at : jsstring
}.

(** [upsert(values, { onConflict: custom_id })] when the store accepts it:
    the columns present in [values] are written, the columns absent from it
    keep the value of the existing row, or are [null] in a new row. *)
Definition upsert (v : upsertValues) (db : gmap jsstring document)
  : gmap jsstring document :=
  let k := p_custom_id (v_payload v) in
  let old := db !! k in
  <[ k := Document
            (p_original_relative_path (v_payload v))
            (Some (p_pdf_name (v_payload v)))
            (p_pdf_url (v_payload v))
            (p_size_bytes (v_payload v))
            (p_modified_time_iso (v_payload v))
            (v_status v)
            (v_error v)
            (default (old ≫= csv_url) (v_csv_url v))
            (default (old ≫= csv_key) (v_csv_key v))
            (v_updated_at v) ]> db.

(** The outcome of a store call: [Some msg] is the [error.message] the
    client returned, [None] a success.  A rejected write changes nothing. *)
Definition attempt (fault : option jsstring)
    (write : gmap jsstring document → gmap jsstring document)
    (db : gmap jsstring document) : gmap jsstring document :=
  match fault with
  | None => write db
  | Some _ => db
  end.

(** [upsertDocPending]: the payload with [status: pending, error: null]. *)
Definition upsertDocPending (fault : option jsstring) (payload : docPayload)
    (now : jsstring) (db : gmap jsstring document) : gmap jsstring document :=
  attempt fault (upsert (UpsertValues payload Pending None None None now)) db.

(** [upsertDocFailed] of the three catalog-driven variants: the payload
    with [status: failed, error: errorMessage]; a store error is logged (or
    ignored) and not thrown. *)
Definition upsertDocFailed (fault : option jsstring) (payload : docPayload)
    (errorMessage : jsstring) (now : jsstring) (db : gmap jsstring document)
  : gmap jsstring document :=
  attempt fault
    (upsert (UpsertValues payload Failed (Some errorMessage) None None now)) db.

(** [upsertDocumentPending] of the manifest-driven indexer: also
    [csv_url: null, csv_key: null]. *)
Definition upsertDocumentPending (fault : option jsstring)
    (payload : docPayload) (now : jsstring) (db : gmap jsstring document)
  : gmap jsstring document :=
  attempt fault
    (upsert (UpsertValues payload Pending None (Some None) (Some None) now)) db.

(** [upsertDocumentFailed] of the manifest-driven indexer: also
    [csv_url: null, csv_key: null]. *)
Definition upsertDocumentFailed (fault : option jsstring)
    (payload : docPayload) (errorMessage : jsstring) (now : jsstring)
    (db : gmap jsstring document) : gmap jsstring document :=
  attempt fault
    (upsert (UpsertValues payload Failed (Some errorMessage)
               (Some None) (Some None) now)) db.

(** [markDocProcessed]: an [update ... eq(custom_id, customId)]; it changes
    the row when there is one and nothing otherwise. *)
Definition markDocProcessed (fault : option jsstring) (customId : jsstring)
    (csvUrl csvKey : option jsstring) (now : jsstring)
    (db : gmap jsstring document) : gmap jsstring document :=
  attempt fault
    (alter (λ d, Document (original_relative_path d) (pdf_name d) (pdf_url d)
                   (size_bytes d) (modified_time_iso d)
                   Processed None csvUrl csvKey now) customId) db.

(** The artifact reference recorded for an identity ([null]s when there is
    no row). *)
Definition artifactRef (db : gmap jsstring document) (customId : jsstring)
  : option jsstring * option jsstring :=
  (db !! customId ≫= csv_url, db !! customId ≫= csv_key).

End Status.

Module StatusFacts.
Import Js Catalog Status.

Lemma upsert_absent_keeps_ref payload st err now db :
  artifactRef (upsert (UpsertValues payload st err None None now) db)
              (p_custom_id payload)
  = artifactRef db (p_custom_id payload).
Proof.
  unfold artifactRef, upsert. simpl. by rewrite lookup_insert_eq.
Qed.

Lemma upsert_other v db k :
  k ≠ p_custom_id (v_payload v) → upsert v db !! k = db !! k.
Proof. intros Hk. unfold upsert. by rewrite lookup_insert_ne. Qed.

(** C6, as amended.  The failed-state write of the catalog-driven variants
    writes the payload columns, [status = failed], the error text and the
    time stamp; when the store accepts it the record is [failed] with a
    non-null error, and in every case the artifact reference ([csv_url],
    [csv_key]) of that identity, and every other record, is as before.
    The manifest-driven indexer writes [csv_url = null, csv_key = null] in
    its failed-state write, so an accepted write clears the reference. *)
Theorem failed_write_frame
    (fault : option jsstring) (payload : docPayload)
    (errorMessage now : jsstring) (db : gmap jsstring document) :
  let k := p_custom_id payload in
  artifactRef (upsertDocFailed fault payload errorMessage now db) k
    = artifactRef db k
  ∧ (∀ k', k' ≠ k →
       upsertDocFailed fault payload errorMessage now db !! k' = db !! k')
  ∧ (fault = None →
     ∃ d, upsertDocFailed fault payload errorMessage now db !! k = Some d
          ∧ doc_status d = Failed ∧ error d = Some errorMessage
          ∧ updated_at d = now)
  ∧ (fault = None →
     artifactRef (upsertDocumentFailed fault payload errorMessage now db) k
       = (None, None)
     ∧ ∃ d, upsertDocumentFailed fault payload errorMessage now db !! k = Some d
            ∧ doc_status d = Failed ∧ error d = Some errorMessage).
Proof.
  intros k. unfold upsertDocFailed, upsertDocumentFailed, attempt.
  split; [|split; [|split]].
  - destruct fault; [done|]. apply upsert_absent_keeps_ref.
  - intros k' Hk. destruct fault; [done|]. by apply upsert_other.
  - intros ->. unfold upsert. simpl. rewrite lookup_insert_eq. eauto.
  - intros ->. unfold artifactRef, upsert. simpl. rewrite lookup_insert_eq.
    split; [done|]. eauto.
Qed.

Definition sample_payload : docPayload :=
  DocPayload None (lit "A") (lit "a.pdf") (Some (lit "http://x/a.pdf")) None None.

Definition processed_A : gmap jsstring document :=
  {[ lit "A" := Document None (Some (lit "a.pdf")) (Some (lit "http://x/a.pdf"))
                  None None Processed None
                  (Some (lit "http://ufs/a.csv")) (Some (lit "key-a"))
                  (lit "t0") ]}.

Lemma failed_write_frame_witness :
  artifactRef (upsertDocFailed None sample_payload (lit "boom") (lit "t1")
                 processed_A) (lit "A")
  = (Some (lit "http://ufs/a.csv"), Some (lit "key-a"))
  ∧ ∃ d, upsertDocFailed None sample_payload (lit "boom") (lit "t1")
           processed_A !! lit "A" = Some d
         ∧ doc_status d = Failed ∧ error d = Some (lit "boom")
         ∧ updated_at d = lit "t1".
Proof.
  pose proof (failed_write_frame None sample_payload (lit "boom") (lit "t1")
                processed_A) as (H1 & _ & H3 & _).
  split; [exact H1|]. apply H3. reflexivity.
Defined.

(** C6 as stated fails for the manifest-driven indexer: its failed-state
    write replaces a recorded artifact reference by [null]s. *)
Lemma failed_write_counterexample :
  artifactRef processed_A (lit "A")
  = (Some (lit "http://ufs/a.csv"), Some (lit "key-a"))
  ∧ artifactRef (upsertDocumentFailed None sample_payload (lit "boom")
                   (lit "t1") processed_A) (lit "A")
    = (None, None).
Proof. split; reflexivity. Qed.

End StatusFacts.

(** ** Errors and results *)

Module Err.
Import Js.

(** The page statistics of the pdftotext variant. *)
Record stats := Stats { totalPages : nat; storedPages : nat; emptyPages : nat }.

(** The [Error] values the workers throw.  The three extraction-empty
    errors keep the numbers their messages are built from. *)
Inductive error :=
| Thrown (message : jsstring)
| NoTextOcr (total processed empty : nat)
| NoTextPdftotext (s : stats)
| NoTextDb (statsJson : jsstring).

Inductive result (A : Type) :=
| Ok (a : A)
| Throw (e : error).
Arguments Ok {A} a.
Arguments Throw {A} e.

Definition num (n : nat) : jsstring := decimal (N.of_nat n).

(** [JSON.stringify(stats)] of the pdftotext variant. *)
Definition stringifyStats (s : stats) : jsstring :=
  lit "{" ++ [DQUOTE] ++ lit "totalPages" ++ [DQUOTE] ++ lit ":"
  ++ num (totalPages s)
  ++ lit "," ++ [DQUOTE] ++ lit "storedPages" ++ [DQUOTE] ++ lit ":"
  ++ num (storedPages s)
  ++ lit "," ++ [DQUOTE] ++ lit "emptyPages" ++ [DQUOTE] ++ lit ":"
  ++ num (emptyPages s) ++ lit "}".

(** [error.message] *)
Definition message (e : error) : jsstring :=
  match e with
  | Thrown m => m
  | NoTextOcr t p n =>
      lit "No extractable text found after OCR. totalPages=" ++ num t
      ++ lit ", processedPages=" ++ num p ++ lit ", emptyPages=" ++ num n
  | NoTextPdftotext s =>
      lit "No extractable text found using pdftotext text-layer extraction. stats="
      ++ stringifyStats s
  | NoTextDb j =>
      lit "No extractable text after text-layer + OCR fallback. stats=" ++ j
  end.

(** [message.length > max ? message.slice(0, max) + ... : message] *)
Definition truncate (max : nat) (m : jsstring) : jsstring :=
  if bool_decide (max < length m)%nat then take max m ++ lit "..." else m.

(** [shortErr(error)] on an [Error]: [error.stack || error.message],
    truncated.  The stack is the runtime's; [stackOf] stands for it. *)
Definition shortErr (stackOf : error → option jsstring) (max : nat)
    (e : error) : jsstring :=
  truncate max (if truthy (stackOf e) then default [] (stackOf e) else message e).

Arguments num : simpl never.
Arguments message : simpl never.
Arguments truncate : simpl never.

End Err.

(** ** Uploading the artifact *)

Module Upload.
Import Js Err.

(** What [utapi.uploadFiles([utFile])] gave: a rejection, an empty result,
    [first.error] (already rendered by [toErrorText]) or [first.data]. *)
Inductive uploadOutcome :=
| UploadRejects (e : error)
| UploadNothing
| UploadError (text : jsstring)
| UploadData (ufsUrl url key : option jsstring).

(** What [utapi.getFileUrls(csvCustomId, { keyType: customId })] gave: a
    rejection, no first entry, or a first entry with its [url] and [key]. *)
Inductive lookupOutcome :=
| LookupRejects
| LookupNoHit
| LookupHit (url key : option jsstring).

(** [a ?? b] *)
Definition nullish (a b : option jsstring) : option jsstring :=
  match a with Some _ => a | None => b end.

Definition lower (c : jschar) : jschar :=
  if (65 <=? c) && (c <=? 90) then c + 32 else c.

Fixpoint startsWithCI (needle hay : jsstring) : bool :=
  match needle, hay with
  | [], _ => true
  | n :: ns, h :: hs => (lower n =? lower h) && startsWithCI ns hs
  | _ :: _, [] => false
  end.

Fixpoint containsCI (needle hay : jsstring) : bool :=
  startsWithCI needle hay
  || match hay with
     | [] => false
     | _ :: hs => containsCI needle hs
     end.

(** The test of the conflict regular expression, [already exists] or [409],
    ignoring case. *)
Definition isConflict (text : jsstring) : bool :=
  containsCI (lit "already exists") text || containsCI (lit "409") text.

(** The synthesized reference [https://<appId>.ufs.sh/f/<csvCustomId>]. *)
Definition ufsUrlOf (appId csvCustomId : jsstring) : jsstring :=
  lit "https://" ++ appId ++ lit ".ufs.sh/f/" ++ csvCustomId.

(** [hit?.url || hit?.key] *)
Definition usable (look : lookupOutcome) : bool :=
  match look with
  | LookupHit url key => truthy url || truthy key
  | _ => false
  end.

(** [uploadCsv] of the OCR variant, which uploads under the explicit key
    [csvCustomId].  [look] is what the look-up by key gives; it is consulted
    in the error branch only. *)
Definition uploadCsv (up : uploadOutcome) (look : lookupOutcome)
    (csvCustomId : jsstring) (appId : option jsstring)
  : result (option jsstring * option jsstring) :=
  match up with
  | UploadRejects e => Throw e
  | UploadNothing => Throw (Thrown (lit "uploadFiles returned empty"))
  | UploadError text =>
      match look with
      | LookupHit url key =>
          if truthy url || truthy key then
            Ok (nullish url
                  (if truthy appId
                   then Some (ufsUrlOf (default [] appId) csvCustomId)
                   else None),
                key)
          else if isConflict text && truthy appId then
            Ok (Some (ufsUrlOf (default [] appId) csvCustomId), None)
          else Throw (Thrown (lit "uploadFiles error: " ++ truncate 1800 text))
      | _ =>
          if isConflict text && truthy appId then
            Ok (Some (ufsUrlOf (default [] appId) csvCustomId), None)
          else Throw (Thrown (lit "uploadFiles error: " ++ truncate 1800 text))
      end
  | UploadData ufsUrl url key => Ok (nullish ufsUrl url, key)
  end.

(** [uploadCsv] of the base and pdftotext variants: the file is uploaded
    without an explicit key, and any [first.error] is thrown, rendered by
    [JSON.stringify]. *)
Definition uploadCsv_keyless (up : uploadOutcome)
  : result (option jsstring * option jsstring) :=
  match up with
  | UploadRejects e => Throw e
  | UploadNothing => Throw (Thrown (lit "uploadFiles returned empty"))
  | UploadError stringified => Throw (Thrown (lit "uploadFiles error: " ++ stringified))
  | UploadData ufsUrl url key => Ok (nullish ufsUrl url, key)
  end.

End Upload.

Module UploadFacts.
Import Js Err Upload.

(** C5: when the store answers the upload with an error (a key conflict in
    particular) and the look-up by key finds the object, [uploadCsv] returns
    the reference found and does not throw; it throws on a store error only
    when the look-up did not resolve the object.  A conflict is moreover
    never thrown when the application id is known. *)
Theorem upload_conflict_resolved
    (text csvCustomId : jsstring) (look : lookupOutcome)
    (appId : option jsstring) :
  (∀ url key, look = LookupHit url key → truthy url || truthy key = true →
     ∃ csvUrl, uploadCsv (UploadError text) look csvCustomId appId
               = Ok (csvUrl, key)
               ∧ (∀ u, url = Some u → csvUrl = Some u))
  ∧ (∀ e, uploadCsv (UploadError text) look csvCustomId appId = Throw e →
       usable look = false
       ∧ (isConflict text = false ∨ truthy appId = false)
       ∧ e = Thrown (lit "uploadFiles error: " ++ truncate 1800 text))
  ∧ (isConflict text = true → truthy appId = true →
     ∃ ref, uploadCsv (UploadError text) look csvCustomId appId = Ok ref).
Proof.
  split; [|split].
  - intros url key -> Hhit. simpl. rewrite Hhit.
    eexists. split; [done|]. by intros u ->.
  - intros e. unfold uploadCsv, usable.
    destruct look as [| |url key];
      try destruct (truthy url || truthy key); try done;
      destruct (isConflict text); destruct (truthy appId); simpl;
      try done; intros [= <-]; auto.
  - intros Hc Ha. simpl. rewrite Hc, Ha. simpl.
    destruct look as [| |url key]; eauto.
    destruct (truthy url || truthy key); eauto.
Qed.

Lemma upload_conflict_resolved_witness :
  ∃ csvUrl,
    uploadCsv (UploadError (lit "File with customId already exists"))
              (LookupHit (Some (lit "https://app.ufs.sh/f/k")) (Some (lit "k")))
              (lit "A__pages_csv_ocr500") None
    = Ok (csvUrl, Some (lit "k"))
    ∧ (∀ u, Some (lit "https://app.ufs.sh/f/k") = Some u → csvUrl = Some u).
Proof.
  apply (proj1 (upload_conflict_resolved
                  (lit "File with customId already exists")
                  (lit "A__pages_csv_ocr500")
                  (LookupHit (Some (lit "https://app.ufs.sh/f/k")) (Some (lit "k")))
                  None) _ _ eq_refl).
  reflexivity.
Defined.

(** The variants that upload without a key have no reference to look up:
    they throw whatever error the store reports. *)
Example uploadCsv_keyless_throws text :
  uploadCsv_keyless (UploadError text)
  = Throw (Thrown (lit "uploadFiles error: " ++ text)).
Proof. reflexivity. Qed.

End UploadFacts.

(** ** Page-level OCR of the rasterising variant *)

Module Ocr.
Import Js Text Err.

Definition PSM_PRIMARY : N := 6.
Definition PSM_FALLBACK : N := 3.

(** What a page handler does to the outside world, in order. *)
Inductive event :=
| Render (page : nat) (imageBase : jsstring) (dpi : nat)
| Tesseract (imagePath : jsstring) (psm : N)
| Unlink (path : jsstring).

(** An entry of [pageResults]. *)
Record pageResult := PageResult {
  page_number : nat;
  text : jsstring;
  chars : nat
}.

(** A computation that logs events and may throw. *)
Definition M (A : Type) : Type := list event * result A.

#[global] Instance M_ret : MRet M := λ A a, ([], Ok a).
#[global] Instance M_bind : MBind M := λ A B f m,
  match m with
  | (tr, Ok a) => let '(tr', r) := f a in (tr ++ tr', r)
  | (tr, Throw e) => (tr, Throw e)
  end.

(** [try { body } finally { cleanup }], for a cleanup that cannot throw. *)
Definition finally {A} (body : M A) (cleanup : list event) : M A :=
  (body.1 ++ cleanup, body.2).

Section Handler.

(** [args.dpi], [temp.imageBase], and the two external tools: [pdftoppm]
    gives [None] on exit code 0, [tesseract] gives its standard output. *)
Variable dpi : nat.
Variable tempImageBase : jsstring.
Variable pdftoppm : nat → option error.
Variable tesseract : jsstring → N → result jsstring.

Definition imageBase (page : nat) : jsstring :=
  tempImageBase ++ lit "_" ++ num page.

Definition imagePath (page : nat) : jsstring := imageBase page ++ lit ".png".

Arguments imageBase : simpl never.
Arguments imagePath : simpl never.

Definition renderPageToPng (page : nat) : M jsstring :=
  ([Render page (imageBase page) dpi],
   match pdftoppm page with
   | None => Ok (imageBase page ++ lit ".png")
   | Some e => Throw e
   end).

(** [runTesseract]: the standard output, normalised. *)
Definition runTesseract (path : jsstring) (psm : N) : M jsstring :=
  ([Tesseract path psm],
   match tesseract path psm with
   | Ok stdout => Ok (normalizeText (Some stdout))
   | Throw e => Throw e
   end).

(** The handler passed to the inner [runConcurrent]; its value is the entry
    it pushes on [pageResults]. *)
Definition ocrPage (page : nat) : M pageResult :=
  finally
    (_ ← renderPageToPng page;
     text ← runTesseract (imagePath page) PSM_PRIMARY;
     text ← (if negb (hasMeaningfulText (Some text))
             then runTesseract (imagePath page) PSM_FALLBACK
             else mret text);
     let normalized := normalizeText (Some text) in
     mret (PageResult page normalized (nonSpaceChars normalized)))
    [Unlink (imagePath page)].

(** The OCR invocations of a trace: image and layout mode. *)
Definition tesseractCalls (tr : list event) : list (jsstring * N) :=
  omap (λ e, match e with Tesseract p psm => Some (p, psm) | _ => None end) tr.

End Handler.

(** [pageResults.sort((a, b) => a.page_number - b.page_number)]: a stable
    sort by page number. *)
Fixpoint insertPage (x : pageResult) (l : list pageResult) : list pageResult :=
  match l with
  | [] => [x]
  | y :: r =>
      if bool_decide (page_number x ≤ page_number y)%nat
      then x :: y :: r
      else y :: insertPage x r
  end.

Fixpoint sortPages (l : list pageResult) : list pageResult :=
  match l with
  | [] => []
  | x :: r => insertPage x (sortPages r)
  end.

(** [pageResults.filter((p) => p.chars > 0)], after the sort. *)
Definition nonEmptyPages (pageResults : list pageResult) : list pageResult :=
  filter (λ p, (0 < chars p)%nat) (sortPages pageResults).

(** [emptyPages = pageResults.length - nonEmptyPages.length] *)
Definition emptyPages (pageResults : list pageResult) : nat :=
  (length pageResults - length (nonEmptyPages pageResults))%nat.

(** The sort, the filter and the check that follows them. *)
Definition checkNonEmpty (totalPages pagesToProcess : nat)
    (pageResults : list pageResult) : result (list pageResult) :=
  if bool_decide (length (nonEmptyPages pageResults) = 0%nat)
  then Throw (NoTextOcr totalPages pagesToProcess (emptyPages pageResults))
  else Ok (nonEmptyPages pageResults).

(** [pagesToProcess]: all pages, or at most [--maxPages]. *)
Definition pagesToProcess (totalPages : nat) (maxPages : option nat) : nat :=
  match maxPages with
  | None => totalPages
  | Some m => (totalPages `min` m)%nat
  end.

(** [pageNumbers = Array.from({ length }, (_, i) => i + 1)] *)
Definition pageNumbers (n : nat) : list nat := seq 1 n.

(** The pages kept by the base variant:
    [pagesAll.map(...).filter((p) => hasMeaningfulText(p.text))] with a
    missing text read as the empty string; the order is the extractor's. *)
Definition readPage_db (p : nat * option jsstring) : nat * jsstring :=
  (p.1, if truthy p.2 then default [] p.2 else []).

Definition pages_db (pagesAll : list (nat * option jsstring))
  : list (nat * jsstring) :=
  filter (λ p, hasMeaningfulText_db (Some p.2)) (readPage_db <$> pagesAll).

End Ocr.

Module OcrFacts.
Import Js Text TextFacts Err Ocr.

(** *** The fallback layout *)

Section Handler.
Variable dpi : nat.
Variable tempImageBase : jsstring.
Variable pdftoppm : nat → option error.
Variable tesseract : jsstring → N → result jsstring.

Local Abbreviation ocr := (ocrPage dpi tempImageBase pdftoppm tesseract).
Local Abbreviation img := (imagePath tempImageBase).

Ltac run_handler :=
  unfold ocrPage, finally, renderPageToPng, runTesseract,
    mbind, M_bind, mret, M_ret; cbn.

Lemma hasMeaningfulText_count raw :
  hasMeaningfulText (Some (normalizeText raw))
  = bool_decide (0 < nonSpaceChars (normalizeText raw))%nat.
Proof. unfold hasMeaningfulText. by rewrite normalizeText_twice. Qed.

(** Every entry a handler pushes has a normalised text and its count. *)
Lemma ocrPage_result page r :
  (ocr page).2 = Ok r →
  page_number r = page ∧ chars r = nonSpaceChars (text r)
  ∧ normalizeText (Some (text r)) = text r.
Proof.
  run_handler.
  destruct (pdftoppm page); [done|]. cbn.
  destruct (tesseract (img page) PSM_PRIMARY) as [out|]; [|done]. cbn.
  destruct (hasMeaningfulText (Some (normalizeText (Some out)))); cbn.
  - intros [= <-]. cbn. by rewrite !normalizeText_twice.
  - destruct (tesseract (img page) PSM_FALLBACK) as [out'|]; [|done]. cbn.
    intros [= <-]. cbn. by rewrite !normalizeText_twice.
Qed.

(** C7: when the primary-layout result of a rendered page has no visible
    character, OCR runs exactly once more, at the fallback layout and on the
    same image, and what the handler records is the fallback's output: its
    normalised text with the count of its visible characters, or the
    fallback's error when it throws; a meaningful primary result is kept and
    nothing is retried; a page is recorded with zero characters only after
    the fallback ran. *)
Theorem fallback_retried_once (page : nat) (stdout : jsstring) :
  pdftoppm page = None →
  tesseract (img page) PSM_PRIMARY = Ok stdout →
  (nonSpaceChars (normalizeText (Some stdout)) = 0%nat →
     tesseractCalls (ocr page).1
     = [(img page, PSM_PRIMARY); (img page, PSM_FALLBACK)])
  ∧ ((0 < nonSpaceChars (normalizeText (Some stdout)))%nat →
     tesseractCalls (ocr page).1 = [(img page, PSM_PRIMARY)]
     ∧ (ocr page).2
       = Ok (PageResult page (normalizeText (Some stdout))
               (nonSpaceChars (normalizeText (Some stdout)))))
  ∧ (∀ r, (ocr page).2 = Ok r → chars r = 0%nat →
     tesseractCalls (ocr page).1
     = [(img page, PSM_PRIMARY); (img page, PSM_FALLBACK)])
  ∧ (nonSpaceChars (normalizeText (Some stdout)) = 0%nat →
     (ocr page).2
     = match tesseract (img page) PSM_FALLBACK with
       | Ok retried =>
           Ok (PageResult page (normalizeText (Some retried))
                 (nonSpaceChars (normalizeText (Some retried))))
       | Throw e => Throw e
       end).
Proof.
  intros Hrender Hprimary.
  run_handler.
  rewrite Hrender, Hprimary. cbn.
  rewrite hasMeaningfulText_count.
  destruct (decide (0 < nonSpaceChars (normalizeText (Some stdout)))%nat)
    as [Hpos|Hzero].
  - rewrite bool_decide_eq_true_2 by done. cbn.
    rewrite normalizeText_twice.
    split; [lia|]. split; [done|]. split; [|lia].
    intros r [= <-]. cbn. lia.
  - rewrite bool_decide_eq_false_2 by done. cbn.
    split; [|split; [|split]].
    + intros _. by destruct (tesseract (img page) PSM_FALLBACK).
    + lia.
    + intros r _ _. by destruct (tesseract (img page) PSM_FALLBACK).
    + intros _. destruct (tesseract (img page) PSM_FALLBACK) as [retried|e];
        cbn; [|done].
      by rewrite !normalizeText_twice.
Qed.

End Handler.

(** A page whose primary OCR is blank and whose fallback finds text. *)
Definition sample_tesseract (path : jsstring) (psm : N) : result jsstring :=
  if psm =? PSM_PRIMARY then Ok (lit "  ") else Ok (lit "Page Two").

Lemma fallback_retried_once_witness :
  tesseractCalls (ocrPage 500 (lit "t") (λ _, None) sample_tesseract 2).1
  = [(imagePath (lit "t") 2, PSM_PRIMARY); (imagePath (lit "t") 2, PSM_FALLBACK)]
  ∧ (ocrPage 500 (lit "t") (λ _, None) sample_tesseract 2).2
    = Ok (PageResult 2 (lit "Page Two") 7).
Proof.
  pose proof (fallback_retried_once 500 (lit "t") (λ _, None) sample_tesseract
                2 (lit "  ") eq_refl eq_refl) as (Hcalls & _ & _ & Hresult).
  split; [apply Hcalls; reflexivity|].
  rewrite Hresult by reflexivity. reflexivity.
Defined.

End OcrFacts.

(** ** Sorting and filtering the page results *)

Module ExtractionFacts.
Import Js Text TextFacts Err Ocr Csv CsvFacts.

Definition le_page (a b : pageResult) : Prop :=
  (Ocr.page_number a ≤ Ocr.page_number b)%nat.

Definition lt_page (a b : pageResult) : Prop :=
  (Ocr.page_number a < Ocr.page_number b)%nat.

Lemma insertPage_perm x l : insertPage x l ≡ₚ x :: l.
Proof.
  induction l as [|y r IH]; simpl; [done|].
  case_bool_decide; [done|]. rewrite IH. apply Permutation_swap.
Qed.

Lemma sortPages_perm l : sortPages l ≡ₚ l.
Proof.
  induction l as [|x r IH]; simpl; [done|].
  by rewrite insertPage_perm, IH.
Qed.

Lemma insertPage_sorted x l :
  StronglySorted le_page l → StronglySorted le_page (insertPage x l).
Proof.
  induction 1 as [|y r Hr IH Hy]; simpl.
  - repeat constructor.
  - case_bool_decide as Hxy.
    + constructor; [by constructor|]. constructor; [done|].
      eapply Forall_impl; [exact Hy|]. unfold le_page. intros z ?. lia.
    + constructor; [done|]. rewrite insertPage_perm.
      constructor; [|done]. unfold le_page. lia.
Qed.

Lemma sortPages_sorted l : StronglySorted le_page (sortPages l).
Proof.
  induction l as [|x r IH]; simpl; [constructor|]. by apply insertPage_sorted.
Qed.

Lemma sorted_strict l :
  StronglySorted le_page l → NoDup (Ocr.page_number <$> l) →
  StronglySorted lt_page l.
Proof.
  induction 1 as [|x r Hr IH Hx]; [constructor|].
  rewrite fmap_cons, NoDup_cons. intros [Hnotin Hnd].
  constructor; [by apply IH|].
  apply Forall_forall. intros y Hy.
  rewrite Forall_forall in Hx. specialize (Hx y Hy).
  unfold le_page in Hx. unfold lt_page.
  assert (Ocr.page_number x ≠ Ocr.page_number y); [|lia].
  intros E. apply Hnotin. rewrite E. by apply list_elem_of_fmap_2.
Qed.

Lemma StronglySorted_filter {A} (R : relation A) (P : A → Prop)
    `{∀ x, Decision (P x)} l :
  StronglySorted R l → StronglySorted R (filter P l).
Proof.
  induction 1 as [|x r Hr IH Hx]; [constructor|].
  rewrite filter_cons. destruct (decide (P x)); [|done].
  constructor; [done|].
  apply Forall_forall. intros y Hy. apply list_elem_of_filter in Hy as [_ Hy].
  rewrite Forall_forall in Hx. by apply Hx.
Qed.

Lemma NoDup_fmap_elem_eq {A B} (f : A → B) (l : list A) x y :
  NoDup (f <$> l) → x ∈ l → y ∈ l → f x = f y → x = y.
Proof.
  induction l as [|z r IH]; [by inversion 2|].
  rewrite fmap_cons, NoDup_cons. intros [Hz Hnd] Hx Hy E.
  apply elem_of_cons in Hx as [->|Hx]; apply elem_of_cons in Hy as [->|Hy].
  - done.
  - destruct Hz. rewrite E. by apply list_elem_of_fmap_2.
  - destruct Hz. rewrite <- E. by apply list_elem_of_fmap_2.
  - by apply IH.
Qed.

(** With distinct page numbers the sorted list does not depend on the order
    in which the results were pushed. *)
Lemma sortPages_order_independent l1 l2 :
  NoDup (Ocr.page_number <$> l1) → l1 ≡ₚ l2 → sortPages l1 = sortPages l2.
Proof.
  intros Hnd Hp.
  apply (StronglySorted_unique_strong le_page);
    [|apply sortPages_sorted|apply sortPages_sorted
     |by rewrite !sortPages_perm].
  intros x y Hx Hy Hxy Hyx.
  rewrite sortPages_perm in Hx. rewrite sortPages_perm, <- Hp in Hy.
  apply (NoDup_fmap_elem_eq Ocr.page_number l1); [done..|].
  unfold le_page in *. lia.
Qed.

Lemma pages_db_cons p r :
  pages_db (p :: r)
  = (if hasMeaningfulText_db (Some (readPage_db p).2)
     then [readPage_db p] else [])
    ++ pages_db r.
Proof.
  unfold pages_db. rewrite fmap_cons, filter_cons.
  by destruct (hasMeaningfulText_db (Some (readPage_db p).2)).
Qed.

Lemma pages_db_numbers pagesAll n :
  n ∈ fst <$> pages_db pagesAll → n ∈ fst <$> pagesAll.
Proof.
  induction pagesAll as [|p r IH]; [done|].
  rewrite pages_db_cons, fmap_app, elem_of_app, fmap_cons, elem_of_cons.
  intros [H|H]; [|right; by apply IH].
  destruct (hasMeaningfulText_db _); [|by apply elem_of_nil in H].
  left. rewrite list_fmap_singleton in H. by apply list_elem_of_singleton in H.
Qed.

Lemma pages_db_sorted pagesAll :
  StronglySorted lt (fst <$> pagesAll) →
  StronglySorted lt (fst <$> pages_db pagesAll).
Proof.
  induction pagesAll as [|p r IH]; [done|].
  rewrite fmap_cons, StronglySorted_cons. intros [Hp Hr].
  rewrite pages_db_cons, fmap_app.
  destruct (hasMeaningfulText_db _); [|by apply IH].
  rewrite list_fmap_singleton. cbn. constructor; [by apply IH|].
  apply Forall_forall. intros n Hn. apply pages_db_numbers in Hn.
  rewrite Forall_forall in Hp. by apply Hp.
Qed.

(** A stored page as a row of [document_pages] and of the artifact. *)
Definition toCsvPage (p : pageResult) : Csv.page :=
  Csv.Page (N.of_nat (Ocr.page_number p)) (Ocr.text p).

(** C3: when every page of a document has been extracted, in whatever
    order the handlers completed, the stored pages are strictly ascending
    by page number, each has at least one visible character, they are the
    same list for every completion order, and the artifact lists them in
    that order.  The base variant keeps the extractor's order and stores
    meaningful pages only. *)
Theorem stored_pages_sorted_meaningful
    (n : nat) (pageResults : list pageResult) :
  Ocr.page_number <$> pageResults ≡ₚ pageNumbers n →
  Forall (λ r, chars r = nonSpaceChars (Ocr.text r)) pageResults →
  StronglySorted lt_page (nonEmptyPages pageResults)
  ∧ Forall (λ r, (0 < nonSpaceChars (Ocr.text r))%nat) (nonEmptyPages pageResults)
  ∧ (∀ other, other ≡ₚ pageResults →
       nonEmptyPages other = nonEmptyPages pageResults)
  ∧ (∀ pdfName customId pdfUrl,
       parseCsvRows (buildCsv pdfName customId pdfUrl
                       (toCsvPage <$> nonEmptyPages pageResults))
       = headerColumns
         :: (columns pdfName customId pdfUrl
               <$> (toCsvPage <$> nonEmptyPages pageResults)))
  ∧ (∀ pagesAll : list (nat * option jsstring),
       Forall (λ p, (0 < nonSpaceChars p.2)%nat) (pages_db pagesAll)
       ∧ (StronglySorted lt (fst <$> pagesAll) →
          StronglySorted lt (fst <$> pages_db pagesAll))).
Proof.
  intros Hperm Hchars.
  assert (Hnd : NoDup (Ocr.page_number <$> pageResults)).
  { rewrite Hperm. apply NoDup_seq. }
  split; [|split; [|split; [|split]]].
  - unfold nonEmptyPages. apply StronglySorted_filter, sorted_strict.
    + apply sortPages_sorted.
    + by rewrite sortPages_perm.
  - unfold nonEmptyPages. apply Forall_forall. intros r Hr.
    apply list_elem_of_filter in Hr as [Hpos Hr].
    rewrite sortPages_perm in Hr.
    rewrite Forall_forall in Hchars. by rewrite <- (Hchars r Hr).
  - intros other Hother. unfold nonEmptyPages.
    rewrite (sortPages_order_independent pageResults other); [done|done|].
    by symmetry.
  - intros. apply parse_buildCsv.
  - intros pagesAll. unfold pages_db. split.
    + apply Forall_forall. intros p Hp.
      apply list_elem_of_filter in Hp as [Hm _].
      unfold hasMeaningfulText_db in Hm. simpl in Hm.
      by apply bool_decide_unpack in Hm.
    + apply pages_db_sorted.
Qed.

(** Two pages whose handlers completed in reverse order. *)
Definition sample_results : list pageResult :=
  [PageResult 2 (lit "Page Two") 7; PageResult 1 (lit "Hello world") 10].

Lemma stored_pages_sorted_meaningful_witness :
  StronglySorted lt_page (nonEmptyPages sample_results)
  ∧ Forall (λ r, (0 < nonSpaceChars (Ocr.text r))%nat) (nonEmptyPages sample_results).
Proof.
  assert (Hperm : Ocr.page_number <$> sample_results ≡ₚ pageNumbers 2)
    by apply Permutation_swap.
  assert (Hchars : Forall (λ r, chars r = nonSpaceChars (Ocr.text r)) sample_results)
    by (repeat constructor).
  pose proof (stored_pages_sorted_meaningful 2 sample_results Hperm Hchars)
    as (H1 & H2 & _).
  by split.
Defined.

Example sample_results_stored :
  nonEmptyPages sample_results
  = [PageResult 1 (lit "Hello world") 10; PageResult 2 (lit "Page Two") 7].
Proof. reflexivity. Qed.

End ExtractionFacts.

(** ** The bounded-parallelism driver [runConcurrent]

    JavaScript runs the tasks on one thread: a task runs until it awaits
    its handler, and resumes when the handler has settled.  A state of the
    driver records the shared cursor [next], what every task is doing, and
    the promise of [Promise.all(workers)]. *)

Module Pool.
Import Err.
Local Open Scope nat_scope.

Inductive task :=
| Running (idx : nat)
| Returned
| Rejected (e : error).

Record pool := Pool {
  next : nat;
  tasks : list task;
  invoked : list nat;
  completed : list nat;
  settled : option (option error)
}.

Definition isReturned (t : task) : bool :=
  match t with Returned => true | _ => false end.




Section Run.

(** [items.length], and how the handler of each item settles: [None] when
    its promise fulfils, [Some e] when it rejects with [e]. *)
Variable len : nat.
Variable outcome : nat → option error.

(** One turn of the [while] loop of a task, up to its [await]:
    [idx = next; next += 1; if (idx >= items.length) return;] and then the
    call [worker(items[idx], idx)]. *)
Definition pull (p : pool) : task * pool :=
  let idx := next p in
  if bool_decide (len ≤ idx)
  then (Returned,
        Pool (S idx) (tasks p) (invoked p) (completed p) (settled p))
  else (Running idx,
        Pool (S idx) (tasks p) (invoked p ++ [idx]) (completed p) (settled p)).

(** [Array.from({ length: m }, async () => ...)]: the tasks are created one
    after the other, each running up to its first [await]. *)
Fixpoint spawn (m : nat) (p : pool) : pool :=
  match m with
  | O => p
  | S m' =>
      let tp := pull p in
      spawn m' (Pool (next tp.2) (tasks tp.2 ++ [tp.1]) (invoked tp.2)
                  (completed tp.2) (settled tp.2))
  end.

(** [Promise.all]: it rejects with the first rejection, and fulfils once
    every task has returned. *)
Definition settle (rejection : option error) (p : pool) : pool :=
  match settled p with
  | Some _ => p
  | None =>
      match rejection with
      | Some e =>
          Pool (next p) (tasks p) (invoked p) (completed p) (Some (Some e))
      | None =>
          if forallb isReturned (tasks p)
          then Pool (next p) (tasks p) (invoked p) (completed p) (Some None)
          else p
      end
  end.

(** [runConcurrent(items, concurrency, worker)] up to its [await]. *)
Definition start (concurrency : nat) : pool :=
  if bool_decide (len = 0) then Pool 0 [] [] [] (Some None)
  else settle None (spawn (concurrency `min` len) (Pool 0 [] [] [] None)).





End Run.

End Pool.

(** ** What the driver guarantees *)

Module PoolFacts.
Import Err Pool.
Local Open Scope nat_scope.

(** The items whose handlers are in flight. *)
Definition idxs (ts : list task) : list nat :=
  omap (λ t, match t with Running i => Some i | _ => None end) ts.

#[global] Instance idxs_Permutation : Proper ((≡ₚ) ==> (≡ₚ)) idxs.
Proof. intros ts1 ts2 H. unfold idxs. by rewrite H. Qed.





Section Run.
Variable len : nat.
Variable outcome : nat → option error.
Variable concurrency : nat.

Local Abbreviation m := (concurrency `min` len).

























End Run.





End PoolFacts.

(** ** Extraction per variant, and the document worker *)

Module Worker.
Import Js Text Err Catalog Status Upload Ocr.
Local Open Scope nat_scope.

Definition PAGE_CHUNK_SIZE : nat := 200.

(** The two tables a worker writes. [document_pages] is keyed by
    [(custom_id, page_number)]. *)
Record world := World {
  documents : gmap jsstring document;
  document_pages : gmap (jsstring * nat) jsstring
}.

(** Which store calls of a worker are answered with an error (and its
    message). *)
Record faults := Faults {
  f_pending : option jsstring;
  f_failed : option jsstring;
  f_processed : option jsstring;
  f_delete : option jsstring;
  f_chunk : nat → option jsstring
}.

(** The slices [pages.slice(i, i + size)] for [i = 0, size, 2 size, ...]. *)
Fixpoint chunksOf {A} (fuel size : nat) (l : list A) : list (list A) :=
  match fuel with
  | O => []
  | S f =>
      match l with
      | [] => []
      | _ => take size l :: chunksOf f size (drop size l)
      end
  end.

(** [delete().eq(custom_id, customId)] on [document_pages]. *)
Definition deletePages (customId : jsstring)
    (tbl : gmap (jsstring * nat) jsstring) : gmap (jsstring * nat) jsstring :=
  filter (λ kv, kv.1.1 ≠ customId) tbl.

(** An accepted [upsert(chunk, { onConflict: custom_id,page_number })]. *)
Definition upsertPageChunk (customId : jsstring) (chunk : list (nat * jsstring))
    (tbl : gmap (jsstring * nat) jsstring) : gmap (jsstring * nat) jsstring :=
  foldl (λ t r, <[(customId, r.1) := r.2]> t) tbl chunk.

Fixpoint upsertChunks (F : faults) (customId : jsstring) (i : nat)
    (chunks : list (list (nat * jsstring)))
    (tbl : gmap (jsstring * nat) jsstring)
  : gmap (jsstring * nat) jsstring * result unit :=
  match chunks with
  | [] => (tbl, Ok ())
  | c :: cs =>
      match f_chunk F i with
      | Some msg =>
          (tbl, Throw (Thrown (lit "document_pages upsert failed: " ++ msg)))
      | None => upsertChunks F customId (S i) cs (upsertPageChunk customId c tbl)
      end
  end.

(** [replacePages] (and, in the OCR variant, [clearPages] followed by the
    chunked upserts of the row loop): delete, then upsert in chunks. *)
Definition replacePages (F : faults) (customId : jsstring)
    (pages : list (nat * jsstring)) (tbl : gmap (jsstring * nat) jsstring)
  : gmap (jsstring * nat) jsstring * result unit :=
  match f_delete F with
  | Some msg => (tbl, Throw (Thrown (lit "document_pages delete failed: " ++ msg)))
  | None =>
      upsertChunks F customId 0
        (chunksOf (length pages) PAGE_CHUNK_SIZE pages)
        (deletePages customId tbl)
  end.

(** *** Extraction, OCR variant *)

(** The entries of [pageResults] when the handlers complete in [order]; the
    first rejection rejects the pool. *)
Fixpoint runPages (ocr : nat → M pageResult) (order : list nat)
  : result (list pageResult) :=
  match order with
  | [] => Ok []
  | page :: rest =>
      match (ocr page).2 with
      | Throw e => Throw e
      | Ok r =>
          match runPages ocr rest with
          | Throw e => Throw e
          | Ok rs => Ok (r :: rs)
          end
      end
  end.

Definition extract_ocr500 (pdfinfo : result nat) (maxPages : option nat)
    (ocr : nat → M pageResult) (order : list nat)
  : result (list (nat * jsstring)) :=
  match pdfinfo with
  | Throw e => Throw e
  | Ok total =>
      match runPages ocr order with
      | Throw e => Throw e
      | Ok pageResults =>
          match checkNonEmpty total (pagesToProcess total maxPages) pageResults with
          | Throw e => Throw e
          | Ok stored => Ok ((λ r, (Ocr.page_number r, Ocr.text r)) <$> stored)
          end
      end
  end.

(** *** Extraction, pdftotext variant *)

(** The [for] loop of [extractAllPagesFromBuffer]: [pages] and
    [emptyPages] are its accumulators. *)
Fixpoint extractLoop (pdftotext : nat → result jsstring) (todo : list nat)
    (pages : list (nat * jsstring)) (emptyPages : nat)
  : result (list (nat * jsstring) * nat) :=
  match todo with
  | [] => Ok (pages, emptyPages)
  | page :: rest =>
      match pdftotext page with
      | Throw e => Throw e
      | Ok stdout =>
          let text := normalizeText (Some stdout) in
          if bool_decide (0 < nonSpaceChars text)
          then extractLoop pdftotext rest (pages ++ [(page, text)]) emptyPages
          else extractLoop pdftotext rest pages (S emptyPages)
      end
  end.

Definition extractAllPagesFromBuffer (pdfinfo : result nat)
    (pdftotext : nat → result jsstring)
  : result (list (nat * jsstring) * stats) :=
  match pdfinfo with
  | Throw e => Throw e
  | Ok total =>
      match extractLoop pdftotext (seq 1 total) [] 0 with
      | Throw e => Throw e
      | Ok (pages, empty) => Ok (pages, Stats total (length pages) empty)
      end
  end.

Definition extract_pdftotext (pdfinfo : result nat)
    (pdftotext : nat → result jsstring) : result (list (nat * jsstring)) :=
  match extractAllPagesFromBuffer pdfinfo pdftotext with
  | Throw e => Throw e
  | Ok (pages, stats) =>
      let nonEmptyPages := filter (λ p, hasMeaningfulText (Some p.2)) pages in
      if bool_decide (length nonEmptyPages = 0)
      then Throw (NoTextPdftotext stats)
      else Ok nonEmptyPages
  end.

(** *** Extraction, base variant: the extractor's answer, filtered *)

Definition extract_db
    (extractViaPython : result (list (nat * option jsstring) * jsstring))
  : result (list (nat * jsstring)) :=
  match extractViaPython with
  | Throw e => Throw e
  | Ok (pagesAll, statsJson) =>
      if bool_decide (length (pages_db pagesAll) = 0)
      then Throw (NoTextDb statsJson)
      else Ok (pages_db pagesAll)
  end.

(** *** The worker *)

Section Worker.

(** The outside world of one worker: the store's faults, the time stamps
    of its three status writes, the runtime's stack traces, the download,
    the variant's extraction and its upload. *)
Variable F : faults.
Variable clock : status → jsstring.
Variable stackOf : Err.error → option jsstring.
Variable maxErr : nat.
Variable download : option Err.error.
Variable extract : result (list (nat * jsstring)).
Variable upload : jsstring → result (option jsstring * option jsstring).

Definition csvOf (file : sourceFile) (pages : list (nat * jsstring)) : jsstring :=
  Csv.buildCsv (pdfName file) (customId file) (default [] (ufs_url file))
    ((λ p, Csv.Page (N.of_nat p.1) p.2) <$> pages).

(** The [try] block. *)
Definition body (file : sourceFile) (w : world) : world * result unit :=
  match f_pending F with
  | Some msg =>
      (w, Throw (Thrown (lit "documents upsert pending failed: " ++ msg)))
  | None =>
      let w1 := World (upsertDocPending None (payloadOf file) (clock Pending)
                         (documents w))
                      (document_pages w) in
      match download with
      | Some e => (w1, Throw e)
      | None =>
          match extract with
          | Throw e => (w1, Throw e)
          | Ok pages =>
              match replacePages F (customId file) pages (document_pages w1) with
              | (tbl, Throw e) => (World (documents w1) tbl, Throw e)
              | (tbl, Ok _) =>
                  match upload (csvOf file pages) with
                  | Throw e => (World (documents w1) tbl, Throw e)
                  | Ok (csvUrl, csvKey) =>
                      match f_processed F with
                      | Some msg =>
                          (World (documents w1) tbl,
                           Throw (Thrown (lit "mark processed failed: " ++ msg)))
                      | None =>
                          (World (markDocProcessed None (customId file)
                                    csvUrl csvKey (clock Processed)
                                    (documents w1))
                                 tbl,
                           Ok ())
                      end
                  end
              end
          end
      end
  end.

(** The handler of the outer pool: the [try] block, and the [catch] that
    records the failure.  The flag says which counter is incremented. *)
Definition worker (file : sourceFile) (w : world) : world * bool :=
  match body file w with
  | (w', Ok _) => (w', true)
  | (w', Throw e) =>
      (World (upsertDocFailed (f_failed F) (payloadOf file)
                (shortErr stackOf maxErr e) (clock Failed) (documents w'))
             (document_pages w'),
       false)
  end.

End Worker.

End Worker.

Module WorkerFacts.
Import Js Text TextFacts Err Catalog Status Upload Ocr Worker.
Local Open Scope nat_scope.

Lemma checkNonEmpty_empty total n pageResults :
  length (nonEmptyPages pageResults) = 0 →
  checkNonEmpty total n pageResults = Throw (NoTextOcr total n (length pageResults)).
Proof.
  intros H. unfold checkNonEmpty, emptyPages.
  rewrite bool_decide_eq_true_2 by done. rewrite H. do 2 f_equal. lia.
Qed.

(** The pages the pdftotext loop keeps are meaningful, and every page is
    either kept or counted as empty. *)
Lemma extractLoop_inv pdftotext todo pages empty pages' empty' :
  extractLoop pdftotext todo pages empty = Ok (pages', empty') →
  Forall (λ p, hasMeaningfulText (Some p.2) = true) pages →
  Forall (λ p, hasMeaningfulText (Some p.2) = true) pages'
  ∧ length pages' + empty' = length pages + empty + length todo.
Proof.
  revert pages empty. induction todo as [|page rest IH]; intros pages empty.
  - cbn. intros [= <- <-] H. split; [done|lia].
  - cbn [extractLoop]. destruct (pdftotext page) as [stdout|]; [|done].
    cbn zeta. case_bool_decide as Hpos.
    + intros Hrun Hall. apply IH in Hrun as [H1 H2].
      * split; [done|]. rewrite length_app in H2. cbn in *. lia.
      * apply Forall_app. split; [done|]. constructor; [|done].
        cbn. unfold hasMeaningfulText. rewrite normalizeText_twice.
        by apply bool_decide_eq_true_2.
    + intros Hrun Hall. apply IH in Hrun as [H1 H2]; [|done].
      split; [done|]. cbn in *. lia.
Qed.

Lemma filter_all_true {A} (f : A → bool) (l : list A) :
  Forall (λ x, f x = true) l → filter (λ x, f x) l = l.
Proof.
  induction 1 as [|x r Hx Hr IH]; [done|].
  rewrite filter_cons_True by (by rewrite Hx). by rewrite IH.
Qed.

Lemma extract_pdftotext_empty pdfinfo pdftotext pages st :
  extractAllPagesFromBuffer pdfinfo pdftotext = Ok (pages, st) →
  length (filter (λ p, hasMeaningfulText (Some p.2)) pages) = 0 →
  pages = [] ∧ st = Stats (totalPages st) 0 (totalPages st).
Proof.
  unfold extractAllPagesFromBuffer.
  destruct pdfinfo as [total|]; [|done].
  destruct (extractLoop pdftotext (seq 1 total) [] 0) as [[ps em]|] eqn:E; [|done].
  intros [= <- <-] Hlen.
  apply extractLoop_inv in E as [Hall Hcount]; [|constructor].
  rewrite (filter_all_true (λ p : nat * jsstring, hasMeaningfulText (Some p.2)))
    in Hlen by done.
  apply nil_length_inv in Hlen. subst ps. split; [done|].
  cbn in *. rewrite length_seq in Hcount. f_equal. lia.
Qed.

(** C4, as amended.  A document whose filtered page set is empty makes the
    extraction throw: the OCR variant reports [totalPages], the number of
    pages processed and [emptyPages] equal to it (so equal to [totalPages]
    unless [--maxPages] caps the pages); the pdftotext variant reports
    [{totalPages, storedPages = 0, emptyPages = totalPages}]; the base
    variant reports the extractor's own statistics.  The worker then writes
    no page, uploads nothing, and records the document as failed, or leaves
    it pending when that write is refused: never as processed. *)
Theorem extraction_empty_fails :
  (∀ total maxPages pageResults,
     length (nonEmptyPages pageResults) = 0 →
     checkNonEmpty total (pagesToProcess total maxPages) pageResults
     = Throw (NoTextOcr total (pagesToProcess total maxPages) (length pageResults))
     ∧ (Ocr.page_number <$> pageResults
          ≡ₚ pageNumbers (pagesToProcess total maxPages) →
        length pageResults = pagesToProcess total maxPages
        ∧ (maxPages = None → length pageResults = total)))
  ∧ (∀ pdfinfo pdftotext pages st,
       extractAllPagesFromBuffer pdfinfo pdftotext = Ok (pages, st) →
       length (filter (λ p, hasMeaningfulText (Some p.2)) pages) = 0 →
       extract_pdftotext pdfinfo pdftotext
       = Throw (NoTextPdftotext (Stats (totalPages st) 0 (totalPages st))))
  ∧ (∀ pagesAll statsJson,
       length (pages_db pagesAll) = 0 →
       extract_db (Ok (pagesAll, statsJson)) = Throw (NoTextDb statsJson))
  ∧ (∀ F clock stackOf maxErr extract upload file w e,
       f_pending F = None → extract = Throw e →
       (worker F clock stackOf maxErr None extract upload file w).2 = false
       ∧ document_pages (worker F clock stackOf maxErr None extract upload file w).1
         = document_pages w
       ∧ ∃ d,
           documents (worker F clock stackOf maxErr None extract upload file w).1
             !! customId file = Some d
           ∧ doc_status d ≠ Processed
           ∧ (f_failed F = None →
              doc_status d = Failed
              ∧ Status.error d = Some (shortErr stackOf maxErr e))).
Proof.
  split; [|split; [|split]].
  - intros total maxPages pageResults Hlen.
    split; [by apply checkNonEmpty_empty|].
    intros Hperm.
    assert (Hl : length pageResults = pagesToProcess total maxPages).
    { rewrite <- (length_fmap Ocr.page_number), Hperm.
      unfold pageNumbers. by rewrite length_seq. }
    split; [done|]. by intros ->.
  - intros pdfinfo pdftotext pages st Hrun Hlen.
    destruct (extract_pdftotext_empty _ _ _ _ Hrun Hlen) as [-> Hst].
    unfold extract_pdftotext. rewrite Hrun. cbn zeta.
    rewrite bool_decide_eq_true_2 by done. by rewrite <- Hst.
  - intros pagesAll statsJson Hlen. unfold extract_db.
    by rewrite bool_decide_eq_true_2.
  - intros F clock stackOf maxErr extract upload file w e Hp He.
    unfold worker, body. rewrite Hp, He.
    cbn [fst snd documents document_pages].
    split; [done|]. split; [done|].
    unfold upsertDocFailed, upsertDocPending, attempt.
    destruct (f_failed F) as [msg|].
    + unfold upsert. cbn [v_payload v_status payloadOf p_custom_id].
      rewrite lookup_insert_eq. eexists. split; [done|]. by split.
    + unfold upsert. cbn [v_payload v_status v_error payloadOf p_custom_id].
      rewrite lookup_insert_eq. eexists. split; [done|]. by split.
Qed.

Lemma extraction_empty_fails_witness :
  checkNonEmpty 2 (pagesToProcess 2 None)
    [PageResult 2 [] 0; PageResult 1 [] 0]
  = Throw (NoTextOcr 2 (pagesToProcess 2 None) 2).
Proof.
  apply (proj1 (proj1 extraction_empty_fails 2 None
                  [PageResult 2 [] 0; PageResult 1 [] 0] eq_refl)).
Defined.

(** C4 as stated fails in the OCR variant under [--maxPages]: with two
    pages, a cap of one and a blank first page, the error reports one empty
    page, not [totalPages], and its message has no [storedPages]. *)
Lemma extraction_empty_counterexample :
  checkNonEmpty 2 (pagesToProcess 2 (Some 1)) [PageResult 1 [] 0]
  = Throw (NoTextOcr 2 1 1)
  ∧ message (NoTextOcr 2 1 1)
    = lit "No extractable text found after OCR. totalPages=2, processedPages=1, emptyPages=1".
Proof. split; reflexivity. Qed.

End WorkerFacts.

(** * Further properties of the indexers *)

(** ** The batch, the error text, the temporary names *)

Module Temp.
Import Js.
Local Open Scope nat_scope.

(** The characters kept by the sanitising [replace] of [makeTempFilePaths]
    and [makeTempPaths]: letters, digits, dot, underscore and hyphen. *)
Definition isSafeChar (c : jschar) : bool :=
  (((97 <=? c) && (c <=? 122)) || ((65 <=? c) && (c <=? 90))
   || ((48 <=? c) && (c <=? 57)) || (c =? 46) || (c =? 95) || (c =? 45))%N.

(** [String(identity).replace(<unsafe>, _).slice(0, max)], with [max = 100]
    in the OCR variant and [120] in the manifest-driven indexer. *)
Definition safeName (max : nat) (identity : jsstring) : jsstring :=
  take max ((λ c, if isSafeChar c then c else 95%N) <$> identity).

(** The three paths of [makeTempFilePaths]; [tmpDir] is [TMP_DIR] with its
    separator, [suffix] the time stamp and random part. *)
Record tempPaths := TempPaths {
  pdfPath : jsstring;
  csvPath : jsstring;
  imageBase : jsstring
}.

Definition makeTempFilePaths (tmpDir suffix identity : jsstring) : tempPaths :=
  let base := tmpDir ++ safeName 100 identity ++ lit "_" ++ suffix in
  TempPaths (base ++ lit ".pdf") (base ++ lit ".csv") (base ++ lit "_page").

End Temp.

Module TempFacts.
Import Js Err Catalog Temp.
Local Open Scope nat_scope.

(** X1: the batch skips the first [startAt] rows of the work set and holds
    at most [limit] of the rows that follow, in order; with no limit it
    holds all of them, and a [startAt] beyond the end gives an empty batch. *)
Theorem batch_is_segment (startAt : nat) (limit : option nat)
    (rows : list sourceFile) :
  batch startAt limit rows = take (default (length rows) limit) (drop startAt rows)
  ∧ length (batch startAt limit rows)
    = default (length rows) limit `min` (length rows - startAt)
  ∧ batch startAt limit rows `sublist_of` rows.
Proof.
  assert (E : batch startAt limit rows
              = take (default (length rows) limit) (drop startAt rows)).
  { unfold batch. destruct (decide (startAt ≤ length rows)) as [Hle|Hgt].
    - rewrite (Nat.min_l startAt) by lia. destruct limit as [l|]; cbn.
      + destruct (decide (l ≤ length rows - startAt)).
        * f_equal. lia.
        * rewrite !take_ge; [done|rewrite length_drop; lia..].
      + rewrite !take_ge; [done|rewrite length_drop; lia..].
    - rewrite (Nat.min_r startAt) by lia.
      rewrite !drop_ge by lia. by rewrite !take_nil. }
  split; [done|]. split.
  - rewrite E, length_take, length_drop. done.
  - rewrite E. etrans; [apply sublist_take|apply sublist_drop].
Qed.

(** X2: the error text recorded for a failed document is the rendered
    error itself when it has at most [max] code units, and otherwise its
    first [max] code units followed by three dots; it is never longer than
    [max + 3]. *)
Theorem shortErr_bounded (stackOf : error → option jsstring) (max : nat)
    (e : error) :
  (length (shortErr stackOf max e) ≤ max + 3)
  ∧ take max (shortErr stackOf max e)
    = take max (if truthy (stackOf e) then default [] (stackOf e) else message e)
  ∧ (length (if truthy (stackOf e) then default [] (stackOf e) else message e)
       ≤ max →
     shortErr stackOf max e
     = (if truthy (stackOf e) then default [] (stackOf e) else message e))
  ∧ (max
       < length (if truthy (stackOf e) then default [] (stackOf e) else message e) →
     shortErr stackOf max e
     = take max (if truthy (stackOf e) then default [] (stackOf e) else message e)
       ++ lit "..."
     ∧ length (shortErr stackOf max e) = max + 3).
Proof.
  unfold shortErr, truncate.
  set (m := if truthy (stackOf e) then default [] (stackOf e) else message e).
  case_bool_decide as H.
  - split; [|split; [|split]].
    + rewrite length_app, length_take.
      change (length (lit "...")) with 3. lia.
    + rewrite take_app_le by (rewrite length_take; lia).
      by rewrite take_take, Nat.min_id.
    + lia.
    + intros _. split; [done|].
      rewrite length_app, length_take.
      change (length (lit "...")) with 3. lia.
  - split; [lia|]. split; [done|]. split; [done|]. lia.
Qed.

(** A message of five code units cut at two. *)
Example shortErr_appends_dots :
  shortErr (λ _, None) 2 (Thrown (lit "abcde")) = lit "ab...".
Proof. reflexivity. Qed.

Lemma isSafeChar_replacement c :
  isSafeChar (if isSafeChar c then c else 95%N) = true.
Proof. by destruct (isSafeChar c) eqn:E. Qed.

(** X3: the sanitised identity used in temporary file names consists of
    letters, digits, dots, underscores and hyphens only (so it holds no
    path separator), has at most [max] code units, and sanitising it again
    changes nothing. *)
Theorem safeName_is_safe (max : nat) (identity : jsstring) :
  Forall (λ c, isSafeChar c = true) (safeName max identity)
  ∧ length (safeName max identity) ≤ max
  ∧ (47%N ∉ safeName max identity)
  ∧ safeName max (safeName max identity) = safeName max identity.
Proof.
  assert (Hsafe : Forall (λ c, isSafeChar c = true) (safeName max identity)).
  { unfold safeName. apply Forall_take, Forall_fmap, Forall_forall.
    intros c _. apply isSafeChar_replacement. }
  split; [done|]. split; [|split].
  - unfold safeName. rewrite length_take. lia.
  - intros Hin. rewrite Forall_forall in Hsafe. by specialize (Hsafe _ Hin).
  - unfold safeName at 1.
    assert (Hid : (λ c, if isSafeChar c then c else 95%N) <$> safeName max identity
                  = safeName max identity).
    { induction Hsafe as [|c r Hc Hr IH]; [done|].
      rewrite fmap_cons, Hc. by rewrite IH. }
    rewrite Hid. apply take_ge. unfold safeName. rewrite length_take. lia.
Qed.

End TempFacts.

(** ** Reading a table page by page *)

Module Paging.
Import Js Err.
Local Open Scope nat_scope.

Definition SOURCE_PAGE_SIZE : nat := 1000.

(** What the store answers to [.range(offset, offset + size - 1)]: the rows
    ([data]; a [null] reads as no row) or an error with its message. *)
Inductive answer (A : Type) :=
| Data (rows : list A)
| StoreError (message : jsstring).
Arguments Data {A} rows.
Arguments StoreError {A} message.

(** The [while (true)] loop shared by [fetchSourceFiles], [fetchAll] and
    [fetchProcessedIds]: [add] is what is done with the rows of a page, and
    [what] starts the message of the error thrown.  The loop ends on an
    error, on an empty page, and after a page shorter than [size]; [None]
    is the loop still running when the fuel is spent. *)
Fixpoint fetchLoop {A S} (range : nat → answer A) (add : S → list A → S)
    (what : jsstring) (size fuel offset : nat) (out : S)
  : option (result S) :=
  match fuel with
  | O => None
  | S fuel' =>
      match range offset with
      | StoreError msg => Some (Throw (Thrown (what ++ msg)))
      | Data data =>
          if bool_decide (length data = 0) then Some (Ok out)
          else if bool_decide (length data < size) then Some (Ok (add out data))
          else fetchLoop range add what size fuel' (offset + size) (add out data)
      end
  end.

(** [fetchSourceFiles]: [out.push(...data)]. *)
Definition fetchSourceFiles {A} (range : nat → answer A) (fuel : nat)
  : option (result (list A)) :=
  fetchLoop range (λ out data, out ++ data)
    (lit "Fetch granth_ocr_files failed: ") SOURCE_PAGE_SIZE fuel 0 [].

(** [fetchProcessedIds] of the OCR and pdftotext variants: the truthy
    [custom_id]s of the rows are added to a set. *)
Definition addIds (out : gset jsstring) (data : list (option jsstring))
  : gset jsstring :=
  foldl (λ s id, if truthy id then {[ default [] id ]} ∪ s else s) out data.

Definition fetchProcessedIds (range : nat → answer (option jsstring))
    (fuel : nat) : option (result (gset jsstring)) :=
  fetchLoop range addIds (lit "Fetch processed ids failed: ")
    SOURCE_PAGE_SIZE fuel 0 ∅.

(** A store that answers every range from one unchanging table. *)
Definition snapshot {A} (table : list A) (size : nat) (offset : nat) : answer A :=
  Data (take size (drop offset table)).

End Paging.

Module PagingFacts.
Import Js Err Paging.
Local Open Scope nat_scope.

Lemma fetchLoop_snapshot {A S} (table : list A) (add : S → list A → S)
    what size fuel offset out :
  0 < size →
  (∀ s a b, add (add s a) b = add s (a ++ b)) →
  (∀ s, add s [] = s) →
  length table - offset < fuel →
  fetchLoop (snapshot table size) add what size fuel offset out
  = Some (Ok (add out (drop offset table))).
Proof.
  intros Hsize Hadd Hnil. revert offset out.
  induction fuel as [|fuel IH]; intros offset out Hfuel; [lia|].
  cbn [fetchLoop]. unfold snapshot at 1.
  rewrite length_take, length_drop.
  case_bool_decide as H0.
  - rewrite drop_ge by lia. by rewrite Hnil.
  - case_bool_decide as H1.
    + by rewrite take_ge by (rewrite length_drop; lia).
    + rewrite IH by lia. rewrite Hadd. do 3 f_equal.
      rewrite <- (take_drop size (drop offset table)) at 2.
      by rewrite drop_drop.
Qed.

(** X4: when the store answers every range from one unchanging table and
    no page fails, [fetchSourceFiles] ends and returns every row of the
    table exactly once, in table order, whatever the length of the table
    is (also when it is a multiple of the page size); an error on the
    first page is thrown with the table's name. *)
Theorem fetchSourceFiles_complete {A} (table : list A) (fuel : nat) :
  length table < fuel →
  fetchSourceFiles (snapshot table SOURCE_PAGE_SIZE) fuel = Some (Ok table)
  ∧ (∀ msg, fetchSourceFiles (λ _, StoreError msg : answer A) fuel
            = Some (Throw (Thrown (lit "Fetch granth_ocr_files failed: " ++ msg)))).
Proof.
  intros Hfuel. split.
  - unfold fetchSourceFiles.
    rewrite fetchLoop_snapshot; unfold SOURCE_PAGE_SIZE; try lia.
    + done.
    + intros s a b. by rewrite <- app_assoc.
    + intros s. by rewrite app_nil_r.
  - intros msg. unfold fetchSourceFiles. destruct fuel; [lia|]. done.
Qed.

Lemma fetchSourceFiles_complete_witness :
  fetchSourceFiles (snapshot [1; 2; 3] SOURCE_PAGE_SIZE) 4 = Some (Ok [1; 2; 3]).
Proof.
  apply (proj1 (fetchSourceFiles_complete [1; 2; 3] 4 ltac:(cbn; lia))).
Defined.

Lemma addIds_app s a b : addIds (addIds s a) b = addIds s (a ++ b).
Proof. unfold addIds. by rewrite foldl_app. Qed.

Lemma elem_of_addIds s data i :
  i ∈ addIds s data ↔ i ∈ s ∨ (i ≠ [] ∧ Some i ∈ data).
Proof.
  revert s. induction data as [|id r IH]; intros s.
  - cbn. split; [by left|]. intros [?|[_ H]]; [done|]. by apply elem_of_nil in H.
  - cbn [addIds foldl]. fold (addIds (if truthy id then {[default [] id]} ∪ s else s) r).
    rewrite IH. destruct id as [[|c cs]|]; cbn [truthy default].
    + split.
      * intros [?|[? ?]]; [by left|]. right. split; [done|]. by right.
      * intros [?|[Hne Hin]]; [by left|].
        apply elem_of_cons in Hin as [[=]|Hin]; [by destruct Hne|]. by right.
    + rewrite elem_of_union, elem_of_singleton. split.
      * intros [[->|?]|[? ?]]; [|by left|].
        -- right. split; [done|]. by left.
        -- right. split; [done|]. by right.
      * intros [?|[Hne Hin]]; [by left; right|].
        apply elem_of_cons in Hin as [[= ->]|Hin]; [by left; left|]. by right.
    + split.
      * intros [?|[? ?]]; [by left|]. right. split; [done|]. by right.
      * intros [?|[Hne Hin]]; [by left|].
        apply elem_of_cons in Hin as [[=]|Hin]. by right.
Qed.

(** X5: under the same conditions [fetchProcessedIds] returns exactly the
    set of non-empty [custom_id]s of the processed rows: a row whose
    [custom_id] is [null] or empty contributes nothing. *)
Theorem fetchProcessedIds_complete (table : list (option jsstring))
    (fuel : nat) :
  length table < fuel →
  ∃ ids, fetchProcessedIds (snapshot table SOURCE_PAGE_SIZE) fuel = Some (Ok ids)
         ∧ ∀ i, i ∈ ids ↔ i ≠ [] ∧ Some i ∈ table.
Proof.
  intros Hfuel. exists (addIds ∅ table). split.
  - unfold fetchProcessedIds.
    rewrite fetchLoop_snapshot; unfold SOURCE_PAGE_SIZE; try lia.
    + done.
    + apply addIds_app.
    + done.
  - intros i. rewrite elem_of_addIds. split; [|by right].
    intros [H|H]; [by apply elem_of_empty in H|done].
Qed.

Lemma fetchProcessedIds_complete_witness :
  ∃ ids, fetchProcessedIds
           (snapshot [Some (lit "A"); None; Some []] SOURCE_PAGE_SIZE) 4
         = Some (Ok ids)
         ∧ ∀ i, i ∈ ids ↔ i ≠ [] ∧ Some i ∈ [Some (lit "A"); None; Some []].
Proof.
  apply (fetchProcessedIds_complete [Some (lit "A"); None; Some []] 4).
  cbn. lia.
Defined.

End PagingFacts.

(** ** More about extraction *)

Module ExtractionMore.
Import Js Text TextFacts Err Ocr OcrFacts ExtractionFacts Worker WorkerFacts.
Local Open Scope nat_scope.

(** The files a trace deletes. *)
Definition unlinks (tr : list event) : list jsstring :=
  omap (λ e, match e with Unlink p => Some p | _ => None end) tr.

(** X6: whatever the rasteriser and the OCR engine do, a page handler
    starts by rendering its page, ends by deleting the rendered image and
    deletes nothing else, also when rendering or OCR fails; OCR runs at
    most twice, and only on that image. *)
Theorem ocrPage_cleans_up (dpi : nat) (tempImageBase : jsstring)
    (pdftoppm : nat → option error) (tesseract : jsstring → N → result jsstring)
    (page : nat) :
  head (ocrPage dpi tempImageBase pdftoppm tesseract page).1
  = Some (Render page (Ocr.imageBase tempImageBase page) dpi)
  ∧ last (ocrPage dpi tempImageBase pdftoppm tesseract page).1
    = Some (Unlink (imagePath tempImageBase page))
  ∧ unlinks (ocrPage dpi tempImageBase pdftoppm tesseract page).1
    = [imagePath tempImageBase page]
  ∧ Forall (λ c, c.1 = imagePath tempImageBase page)
      (tesseractCalls (ocrPage dpi tempImageBase pdftoppm tesseract page).1)
  ∧ length (tesseractCalls (ocrPage dpi tempImageBase pdftoppm tesseract page).1) ≤ 2.
Proof.
  unfold ocrPage, finally, renderPageToPng, runTesseract,
    mbind, M_bind, mret, M_ret; cbn.
  destruct (pdftoppm page); cbn;
    [repeat split; first [done | by repeat constructor | lia]|].
  destruct (tesseract (imagePath tempImageBase page) PSM_PRIMARY) as [out|];
    cbn; [|repeat split; first [done | by repeat constructor | lia]].
  destruct (hasMeaningfulText (Some (normalizeText (Some out)))); cbn;
    [repeat split; first [done | by repeat constructor | lia]|].
  destruct (tesseract (imagePath tempImageBase page) PSM_FALLBACK); cbn;
    (repeat split; first [done | by repeat constructor | lia]).
Qed.

Lemma sorted_numbers (l : list pageResult) :
  StronglySorted lt_page l →
  StronglySorted lt (fst <$> ((λ r, (Ocr.page_number r, Ocr.text r)) <$> l)).
Proof.
  induction 1 as [|r l Hl IH Hr]; [constructor|].
  rewrite !fmap_cons. constructor; [done|].
  by rewrite <- list_fmap_compose, Forall_fmap.
Qed.

Section Pages.
Variable dpi : nat.
Variable tempImageBase : jsstring.
Variable pdftoppm : nat → option error.
Variable tesseract : jsstring → N → result jsstring.

Local Abbreviation ocr := (ocrPage dpi tempImageBase pdftoppm tesseract).

Lemma runPages_spec order rs :
  runPages ocr order = Ok rs →
  Ocr.page_number <$> rs = order
  ∧ Forall (λ r, chars r = nonSpaceChars (Ocr.text r)) rs.
Proof.
  revert rs. induction order as [|page rest IH]; intros rs.
  - cbn. by intros [= <-].
  - cbn [runPages]. destruct ((ocr page).2) as [r|] eqn:E; [|done].
    destruct (runPages ocr rest) as [rs'|]; [|done].
    intros [= <-]. destruct (IH rs' eq_refl) as (H1 & H2).
    destruct (ocrPage_result _ _ _ _ _ _ E) as (Hn & Hc & _).
    split.
    + rewrite fmap_cons. by rewrite Hn, H1.
    + by constructor.
Qed.

Lemma runPages_perm order order' rs :
  order ≡ₚ order' → runPages ocr order = Ok rs →
  ∃ rs', runPages ocr order' = Ok rs' ∧ rs ≡ₚ rs'.
Proof.
  intros Hp. revert rs.
  induction Hp as [|x l l' Hp IH|x y l|l1 l2 l3 H12 IH12 H23 IH23]; intros rs.
  - intros [= <-]. by exists [].
  - cbn [runPages]. destruct ((ocr x).2) as [r|]; [|done].
    destruct (runPages ocr l) as [rs0|]; [|done].
    intros [= <-]. destruct (IH rs0 eq_refl) as (rs' & -> & Hrs).
    exists (r :: rs'). split; [done|]. by constructor.
  - cbn [runPages]. destruct ((ocr y).2) as [ry|]; [|done].
    destruct ((ocr x).2) as [rx|]; [|done].
    destruct (runPages ocr l) as [rs0|]; [|done].
    intros [= <-]. exists (rx :: ry :: rs0). split; [done|]. apply perm_swap.
  - intros H1. destruct (IH12 rs H1) as (rs2 & H2 & Hp2).
    destruct (IH23 rs2 H2) as (rs3 & H3 & Hp3).
    exists rs3. split; [done|]. by etrans.
Qed.

(** X7: when the OCR extraction of a document succeeds, the pages it
    hands on are strictly ascending by page number, each lies between 1 and
    the number of pages processed and has at least one visible character,
    there is at least one, and the result is the same for every order in
    which the page handlers completed. *)
Theorem extract_ocr500_sorted (total : nat) (maxPages : option nat)
    (order : list nat) (pages : list (nat * jsstring)) :
  order ≡ₚ pageNumbers (pagesToProcess total maxPages) →
  extract_ocr500 (Ok total) maxPages ocr order = Ok pages →
  StronglySorted lt (fst <$> pages)
  ∧ Forall (λ p, 1 ≤ p.1 ≤ pagesToProcess total maxPages
                 ∧ 0 < nonSpaceChars p.2) pages
  ∧ pages ≠ []
  ∧ (∀ order', order' ≡ₚ order →
       extract_ocr500 (Ok total) maxPages ocr order' = Ok pages).
Proof.
  intros Hperm. unfold extract_ocr500.
  destruct (runPages ocr order) as [rs|] eqn:Hrun; [|done].
  destruct (runPages_spec _ _ Hrun) as (Hnum & Hchars).
  assert (Hp : Ocr.page_number <$> rs ≡ₚ pageNumbers (pagesToProcess total maxPages))
    by (by rewrite Hnum).
  assert (Hnd : NoDup (Ocr.page_number <$> rs)).
  { rewrite Hp. apply NoDup_seq. }
  unfold checkNonEmpty. case_bool_decide as Hlen; [done|].
  intros [= <-]. split; [|split; [|split]].
  - assert (Hs : StronglySorted lt_page (nonEmptyPages rs)).
    { unfold nonEmptyPages. apply StronglySorted_filter, sorted_strict.
      - apply sortPages_sorted.
      - by rewrite sortPages_perm. }
    by apply sorted_numbers.
  - apply Forall_fmap, Forall_forall. intros r Hr. cbn.
    unfold nonEmptyPages in Hr. apply list_elem_of_filter in Hr as [Hpos Hr].
    rewrite sortPages_perm in Hr.
    split.
    + assert (Hin : Ocr.page_number r ∈ pageNumbers (pagesToProcess total maxPages)).
      { rewrite <- Hp. by apply list_elem_of_fmap_2. }
      unfold pageNumbers in Hin. apply elem_of_seq in Hin. lia.
    + rewrite Forall_forall in Hchars. by rewrite <- (Hchars r Hr).
  - intros E. apply fmap_nil_inv in E. by rewrite E in Hlen.
  - intros order' Ho.
    destruct (runPages_perm _ _ _ (symmetry Ho) Hrun) as (rs' & -> & Hrs).
    assert (Heq : nonEmptyPages rs' = nonEmptyPages rs).
    { unfold nonEmptyPages.
      by rewrite (sortPages_order_independent rs rs'). }
    rewrite Heq. by rewrite bool_decide_eq_false_2.
Qed.

End Pages.

Lemma extract_ocr500_sorted_witness :
  StronglySorted lt
    (fst <$> [(1, normalizeText (Some (lit "Hello world")));
              (2, normalizeText (Some (lit "Page Two")))]).
Proof.
  assert (Hperm : [2; 1] ≡ₚ pageNumbers (pagesToProcess 2 None))
    by apply Permutation_swap.
  apply (extract_ocr500_sorted 500 (lit "t") (λ _, None)
           (λ path _, if bool_decide (path = imagePath (lit "t") 1)
                      then Ok (lit "Hello world") else Ok (lit "Page Two"))
           2 None [2; 1] _ Hperm).
  by vm_compute.
Defined.

End ExtractionMore.

(** ** The pdftotext extraction *)

Module PdftotextFacts.
Import Js Text TextFacts Err Ocr Worker WorkerFacts.
Local Open Scope nat_scope.

Lemma seq_sorted lo n : StronglySorted lt (seq lo n).
Proof.
  revert lo. induction n as [|n IH]; intros lo; cbn; constructor; [apply IH|].
  apply Forall_forall. intros x Hx. apply elem_of_seq in Hx. lia.
Qed.

(** The pages kept so far, followed by the numbers still to visit, stay
    ascending through the loop. *)
Lemma extractLoop_sorted pdftotext total todo acc empty pages empty' :
  extractLoop pdftotext todo acc empty = Ok (pages, empty') →
  StronglySorted lt ((fst <$> acc) ++ todo) →
  Forall (λ p, 1 ≤ p.1 ≤ total ∧ 0 < nonSpaceChars p.2) acc →
  Forall (λ n, 1 ≤ n ≤ total) todo →
  StronglySorted lt (fst <$> pages)
  ∧ Forall (λ p, 1 ≤ p.1 ≤ total ∧ 0 < nonSpaceChars p.2) pages.
Proof.
  revert acc empty. induction todo as [|page rest IH]; intros acc empty.
  - cbn. intros [= <- <-]. by rewrite app_nil_r.
  - cbn [extractLoop]. destruct (pdftotext page) as [stdout|]; [|done].
    cbn zeta. intros Hrun Hs Hacc Htodo.
    apply Forall_cons in Htodo as [Hpage Hrest].
    case_bool_decide as Hpos.
    + eapply IH; [exact Hrun| |apply Forall_app; split; [done|]|done].
      * rewrite fmap_app. cbn. by rewrite <- app_assoc.
      * by constructor.
    + eapply IH; [exact Hrun| |done|done].
      apply StronglySorted_app in Hs as (H1 & H2 & H3).
      apply StronglySorted_app. split; [|split; [done|]].
      * intros x y Hx Hy. apply H1; [done|]. by right.
      * by apply StronglySorted_inv in H3 as [? _].
Qed.

(** X8: the statistics of the pdftotext extraction add up: the stored and
    the empty pages together are all pages of the document; the stored
    pages are strictly ascending, each between 1 and the page count and
    with a visible character; and the filter the caller applies afterwards
    removes none of them. *)
Theorem extractAllPages_stats (pdfinfo : result nat)
    (pdftotext : nat → result jsstring)
    (pages : list (nat * jsstring)) (st : stats) :
  extractAllPagesFromBuffer pdfinfo pdftotext = Ok (pages, st) →
  pdfinfo = Ok (totalPages st)
  ∧ storedPages st = length pages
  ∧ storedPages st + Err.emptyPages st = totalPages st
  ∧ StronglySorted lt (fst <$> pages)
  ∧ Forall (λ p, 1 ≤ p.1 ≤ totalPages st ∧ 0 < nonSpaceChars p.2) pages
  ∧ filter (λ p, hasMeaningfulText (Some p.2)) pages = pages.
Proof.
  unfold extractAllPagesFromBuffer.
  destruct pdfinfo as [total|]; [|done].
  destruct (extractLoop pdftotext (seq 1 total) [] 0) as [[ps em]|] eqn:E; [|done].
  intros [= <- <-]. cbn [totalPages storedPages Err.emptyPages].
  destruct (extractLoop_inv _ _ _ _ _ _ E (Forall_nil_2 _)) as [Hall Hcount].
  cbn in Hcount. rewrite length_seq in Hcount.
  destruct (extractLoop_sorted pdftotext total _ _ _ _ _ E) as [Hs Hb].
  { apply seq_sorted. }
  { constructor. }
  { apply Forall_forall. intros n Hn. apply elem_of_seq in Hn. lia. }
  repeat split; try done; try lia.
  by apply (filter_all_true (λ p : nat * jsstring, hasMeaningfulText (Some p.2))).
Qed.

Lemma extractAllPages_stats_witness :
  storedPages (Stats 2 1 1) + Err.emptyPages (Stats 2 1 1) = totalPages (Stats 2 1 1).
Proof.
  apply (extractAllPages_stats (Ok 2)
           (λ page, if bool_decide (page = 1) then Ok (lit "Hello") else Ok [])
           [(1, normalizeText (Some (lit "Hello")))] (Stats 2 1 1)).
  by vm_compute.
Defined.

End PdftotextFacts.

(** ** The worker and the two tables *)

Module WorkerMore.
Import Js Text Err Catalog Status StatusFacts Upload Ocr Worker.
Local Open Scope nat_scope.

Lemma chunksOf_concat {A} fuel size (l : list A) :
  0 < size → length l ≤ fuel → concat (chunksOf fuel size l) = l.
Proof.
  intros Hsize. revert l. induction fuel as [|f IH]; intros l Hl.
  - destruct l; [done|]. cbn in Hl. lia.
  - destruct l as [|x r]; [done|].
    cbn [chunksOf concat]. rewrite IH.
    + apply take_drop.
    + rewrite length_drop. cbn in *. lia.
Qed.

Lemma chunksOf_sizes {A} fuel size (l : list A) :
  0 < size →
  Forall (λ c, 0 < length c ≤ size) (chunksOf fuel size l).
Proof.
  intros Hsize. revert l. induction fuel as [|f IH]; intros l; [constructor|].
  destruct l as [|x r]; [constructor|].
  cbn [chunksOf]. constructor; [|apply IH].
  rewrite length_take. cbn [length]. lia.
Qed.

Lemma chunksOf_full {A} fuel size (l : list A) (i : nat) c :
  chunksOf fuel size l !! i = Some c →
  S i < length (chunksOf fuel size l) → length c = size.
Proof.
  revert l i. induction fuel as [|f IH]; intros l i; [done|].
  destruct l as [|x r]; [done|]. cbn [chunksOf].
  destruct i as [|i]; cbn [lookup list_lookup length].
  - intros [= <-] Hlen. rewrite length_take.
    destruct f as [|f']; [cbn in Hlen; lia|].
    destruct (drop size (x :: r)) as [|y r'] eqn:E; [cbn in Hlen; lia|].
    assert (length (drop size (x :: r)) ≠ 0) by (by rewrite E).
    rewrite length_drop in *. lia.
  - intros Hc Hlen. apply (IH _ _ Hc). lia.
Qed.

(** X9: the slices [replacePages] sends to the store are the pages in
    order with none lost or repeated; every slice has between 1 and 200
    rows, and every slice but the last has exactly 200. *)
Theorem replacePages_chunks {A} (pages : list A) :
  concat (chunksOf (length pages) PAGE_CHUNK_SIZE pages) = pages
  ∧ Forall (λ c, 0 < length c ≤ PAGE_CHUNK_SIZE)
      (chunksOf (length pages) PAGE_CHUNK_SIZE pages)
  ∧ (∀ i c, chunksOf (length pages) PAGE_CHUNK_SIZE pages !! i = Some c →
       S i < length (chunksOf (length pages) PAGE_CHUNK_SIZE pages) →
       length c = PAGE_CHUNK_SIZE).
Proof.
  split; [|split].
  - apply chunksOf_concat; [unfold PAGE_CHUNK_SIZE; lia|done].
  - apply chunksOf_sizes. unfold PAGE_CHUNK_SIZE; lia.
  - apply chunksOf_full.
Qed.

(** *** What the page writes do to a key *)

Lemma deletePages_other cid tbl c n :
  c ≠ cid → deletePages cid tbl !! (c, n) = tbl !! (c, n).
Proof.
  intros Hc. unfold deletePages. apply option_eq. intros t.
  rewrite map_lookup_filter_Some. cbn. split; [by intros [? _]|by split].
Qed.

Lemma deletePages_own cid tbl n : deletePages cid tbl !! (cid, n) = None.
Proof.
  unfold deletePages. apply map_lookup_filter_None. right.
  intros t _. cbn. by intros H.
Qed.

Lemma upsertPageChunk_app cid a b tbl :
  upsertPageChunk cid (a ++ b) tbl
  = upsertPageChunk cid b (upsertPageChunk cid a tbl).
Proof. unfold upsertPageChunk. apply foldl_app. Qed.

Lemma upsertPageChunk_other cid rows tbl c n :
  c ≠ cid → upsertPageChunk cid rows tbl !! (c, n) = tbl !! (c, n).
Proof.
  intros Hc. revert tbl. induction rows as [|r rs IH]; intros tbl; [done|].
  unfold upsertPageChunk in *. cbn [foldl]. rewrite IH.
  apply lookup_insert_ne. congruence.
Qed.

Lemma upsertPageChunk_lookup cid rows tbl n t :
  NoDup (fst <$> rows) →
  upsertPageChunk cid rows tbl !! (cid, n) = Some t
  ↔ (n, t) ∈ rows ∨ ((n ∉ (fst <$> rows)) ∧ tbl !! (cid, n) = Some t).
Proof.
  revert tbl. induction rows as [|[m s] rs IH]; intros tbl.
  - intros _. cbn. split; [intros H; right; split; [apply not_elem_of_nil|done]|].
    intros [H|[_ H]]; [by apply elem_of_nil in H|done].
  - rewrite fmap_cons, NoDup_cons. cbn [fst]. intros [Hm Hnd].
    unfold upsertPageChunk in *. cbn [foldl fst snd]. rewrite (IH _ Hnd).
    rewrite elem_of_cons, not_elem_of_cons.
    destruct (decide (n = m)) as [->|Hne].
    + rewrite lookup_insert_eq. split.
      * intros [H|[_ [= <-]]]; [|by left; left].
        destruct Hm. by apply (list_elem_of_fmap_2 fst) in H.
      * intros [[[= <-]|H]|[[? _] _]]; [|left; done|done].
        right. by split.
    + rewrite lookup_insert_ne by congruence. split.
      * intros [H|[? ?]]; [left; by right|]. right. by split.
      * intros [[[= ? ?]|H]|[[_ ?] ?]]; [done|by left|]. right. by split.
Qed.

Lemma upsertChunks_ok F cid i chunks tbl tbl' :
  upsertChunks F cid i chunks tbl = (tbl', Ok ()) →
  tbl' = upsertPageChunk cid (concat chunks) tbl.
Proof.
  revert i tbl. induction chunks as [|c cs IH]; intros i tbl.
  - cbn. by intros [= <-].
  - cbn [upsertChunks concat]. destruct (f_chunk F i); [done|].
    intros H. rewrite (IH _ _ H). by rewrite upsertPageChunk_app.
Qed.

Lemma upsertChunks_other F cid i chunks tbl c n :
  c ≠ cid → (upsertChunks F cid i chunks tbl).1 !! (c, n) = tbl !! (c, n).
Proof.
  intros Hc. revert i tbl. induction chunks as [|ch cs IH]; intros i tbl; [done|].
  cbn [upsertChunks]. destruct (f_chunk F i); [done|].
  rewrite IH. by apply upsertPageChunk_other.
Qed.

Lemma replacePages_other F cid pages tbl c n :
  c ≠ cid → (replacePages F cid pages tbl).1 !! (c, n) = tbl !! (c, n).
Proof.
  intros Hc. unfold replacePages. destruct (f_delete F); [done|].
  rewrite upsertChunks_other by done. by apply deletePages_other.
Qed.

Lemma replacePages_ok F cid pages tbl tbl' n t :
  replacePages F cid pages tbl = (tbl', Ok ()) →
  NoDup (fst <$> pages) →
  tbl' !! (cid, n) = Some t ↔ (n, t) ∈ pages.
Proof.
  unfold replacePages. destruct (f_delete F); [done|].
  intros H Hnd. apply upsertChunks_ok in H. subst tbl'.
  rewrite chunksOf_concat by (unfold PAGE_CHUNK_SIZE; lia).
  rewrite upsertPageChunk_lookup by done.
  rewrite deletePages_own. split; [by intros [?|[_ ?]]|by left].
Qed.

Section Worker.
Variable F : faults.
Variable clock : status → jsstring.
Variable stackOf : Err.error → option jsstring.
Variable maxErr : nat.
Variable download : option Err.error.
Variable extract : result (list (nat * jsstring)).
Variable upload : jsstring → result (option jsstring * option jsstring).

Local Abbreviation run := (worker F clock stackOf maxErr download extract upload).
Local Abbreviation try := (body F clock download extract upload).

Lemma markDocProcessed_other fault cid u k now db k' :
  k' ≠ cid → markDocProcessed fault cid u k now db !! k' = db !! k'.
Proof.
  intros Hk. unfold markDocProcessed, attempt. destruct fault; [done|].
  by apply lookup_alter_ne.
Qed.

Lemma body_other file w k :
  k ≠ customId file →
  documents (try file w).1 !! k = documents w !! k
  ∧ ∀ n, document_pages (try file w).1 !! (k, n) = document_pages w !! (k, n).
Proof.
  intros Hk. unfold body.
  assert (Hpend : ∀ db, upsertDocPending None (payloadOf file) (clock Pending) db !! k
                        = db !! k).
  { intros db. unfold upsertDocPending, attempt. by apply upsert_other. }
  destruct (f_pending F); [done|].
  destruct download; [cbn [fst documents document_pages]; by rewrite Hpend|].
  destruct extract as [pages|];
    [|cbn [fst documents document_pages]; by rewrite Hpend].
  cbn [document_pages documents].
  pose proof (replacePages_other F (customId file) pages (document_pages w) k) as Hrep.
  destruct (replacePages F (customId file) pages (document_pages w)) as [tbl [[]|e]];
    cbn [fst] in Hrep.
  - destruct (upload (csvOf file pages)) as [[u key]|];
      [|cbn [fst documents document_pages]; rewrite Hpend; split; [done|];
        intros n; by apply Hrep].
    destruct (f_processed F); cbn [fst documents document_pages].
    + rewrite Hpend. split; [done|]. intros n; by apply Hrep.
    + rewrite markDocProcessed_other by done. rewrite Hpend.
      split; [done|]. intros n; by apply Hrep.
  - cbn [fst documents document_pages]. rewrite Hpend. split; [done|].
    intros n; by apply Hrep.
Qed.

End Worker.

(** X10: a worker reads and writes only the rows of its own document:
    every record of [documents] and every row of [document_pages] that
    belongs to another identity is the same after the worker as before,
    whether the worker succeeds or fails, and wherever it fails. *)
Theorem worker_isolation (F : faults) (clock : status → jsstring)
    (stackOf : Err.error → option jsstring) (maxErr : nat)
    (download : option Err.error) (extract : result (list (nat * jsstring)))
    (upload : jsstring → result (option jsstring * option jsstring))
    (file : sourceFile) (w : world) (k : jsstring) :
  k ≠ customId file →
  documents (worker F clock stackOf maxErr download extract upload file w).1 !! k
  = documents w !! k
  ∧ ∀ n, document_pages
           (worker F clock stackOf maxErr download extract upload file w).1 !! (k, n)
         = document_pages w !! (k, n).
Proof.
  intros Hk. unfold worker.
  destruct (body_other F clock download extract upload file w k Hk) as [Hd Hp].
  destruct (body F clock download extract upload file w) as [w' [[]|e]];
    cbn [fst] in *; [done|].
  cbn [documents document_pages]. split; [|done].
  unfold upsertDocFailed, attempt. destruct (f_failed F); [done|].
  by rewrite upsert_other.
Qed.


(** A catalog row with identity A, a store that holds a processed record
    of another document B and one of its pages, and a world without
    faults. *)
Definition file_A : sourceFile :=
  SourceFile 7 (Some (lit "http://x/a.pdf")) None (Some (lit "a.pdf")) None
    (Some (lit "A")) None None None.

Definition world_B : world :=
  World {[ lit "B" := Document None (Some (lit "b.pdf")) None None None
                        Processed None (Some (lit "http://ufs/b.csv"))
                        (Some (lit "key-b")) (lit "t0") ]}
        {[ (lit "B", 1) := lit "old" ]}.

Definition no_faults : faults := Faults None None None None (λ _, None).

Definition clock_0 (s : status) : jsstring :=
  match s with Pending => lit "t1" | Processed => lit "t2" | Failed => lit "t3" end.

Definition upload_ok (csv : jsstring) : result (option jsstring * option jsstring) :=
  Ok (Some (lit "http://ufs/a.csv"), Some (lit "key-a")).

Lemma worker_isolation_witness :
  documents (worker no_faults clock_0 (λ _, None) 500 None
               (Ok [(1, lit "Hello")]) upload_ok file_A world_B).1 !! lit "B"
  = documents world_B !! lit "B".
Proof.
  apply (worker_isolation no_faults clock_0 (λ _, None) 500 None
           (Ok [(1, lit "Hello")]) upload_ok file_A world_B (lit "B")).
  by vm_compute.
Defined.

Section Outcome.
Variable F : faults.
Variable clock : status → jsstring.
Variable stackOf : Err.error → option jsstring.
Variable maxErr : nat.
Variable download : option Err.error.
Variable extract : result (list (nat * jsstring)).
Variable upload : jsstring → result (option jsstring * option jsstring).

Local Abbreviation run := (worker F clock stackOf maxErr download extract upload).
Local Abbreviation try := (body F clock download extract upload).

Lemma upsert_keeps_refs payload st err now db k :
  artifactRef (upsert (UpsertValues payload st err None None now) db) k
  = artifactRef db k.
Proof.
  destruct (decide (k = p_custom_id payload)) as [->|Hk].
  - apply upsert_absent_keeps_ref.
  - unfold artifactRef. by rewrite upsert_other.
Qed.

Lemma pending_row file db :
  ∃ d, upsertDocPending None (payloadOf file) (clock Pending) db !! customId file
       = Some d ∧ doc_status d = Pending.
Proof.
  unfold upsertDocPending, attempt, upsert.
  cbn [v_payload v_status payloadOf p_custom_id].
  rewrite lookup_insert_eq. by eexists.
Qed.

Lemma body_fail file w e :
  (try file w).2 = Throw e →
  (∀ k, artifactRef (documents (try file w).1) k = artifactRef (documents w) k)
  ∧ (f_pending F = None →
     ∃ d, documents (try file w).1 !! customId file = Some d
          ∧ doc_status d = Pending).
Proof.
  unfold body. destruct (f_pending F) as [msg|]; [by intros _; split|].
  assert (Hrefs : ∀ k,
    artifactRef (upsertDocPending None (payloadOf file) (clock Pending)
                   (documents w)) k = artifactRef (documents w) k).
  { intros k. apply upsert_keeps_refs. }
  pose proof (pending_row file (documents w)) as Hrow.
  destruct download; [by intros _; split|].
  destruct extract as [pages|]; [|by intros _; split].
  cbn [document_pages documents].
  destruct (replacePages F (customId file) pages (document_pages w)) as [tbl [[]|e']];
    [|by intros _; split].
  destruct (upload (csvOf file pages)) as [[u key]|]; [|by intros _; split].
  destruct (f_processed F); [by intros _; split|done].
Qed.

Lemma body_ok file w :
  (try file w).2 = Ok () →
  ∃ pages csvUrl csvKey tbl,
    f_pending F = None ∧ download = None ∧ extract = Ok pages
    ∧ replacePages F (customId file) pages (document_pages w) = (tbl, Ok ())
    ∧ upload (csvOf file pages) = Ok (csvUrl, csvKey)
    ∧ (try file w).1
      = World (markDocProcessed None (customId file) csvUrl csvKey (clock Processed)
                 (upsertDocPending None (payloadOf file) (clock Pending)
                    (documents w)))
              tbl.
Proof.
  unfold body. destruct (f_pending F) as [msg|]; [done|].
  destruct download; [done|].
  destruct extract as [pages|]; [|done].
  cbn [document_pages documents].
  destruct (replacePages F (customId file) pages (document_pages w))
    as [tbl [[]|e']] eqn:Hrep; [|done].
  destruct (upload (csvOf file pages)) as [[u key]|] eqn:Hup; [|done].
  destruct (f_processed F); [done|].
  intros _. by exists pages, u, key, tbl.
Qed.

End Outcome.

(** X11: when a worker counts its document as processed, the extraction
    and the upload succeeded, the record of the document is [processed]
    with no error text, the artifact reference the upload returned and the
    catalog's URL, and, the page numbers being distinct, the rows of
    [document_pages] under its identity are exactly the extracted pages:
    rows written by an earlier run are gone. *)
Theorem worker_success (F : faults) (clock : status → jsstring)
    (stackOf : Err.error → option jsstring) (maxErr : nat)
    (download : option Err.error) (extract : result (list (nat * jsstring)))
    (upload : jsstring → result (option jsstring * option jsstring))
    (file : sourceFile) (w : world) :
  (worker F clock stackOf maxErr download extract upload file w).2 = true →
  ∃ pages csvUrl csvKey d,
    extract = Ok pages
    ∧ upload (csvOf file pages) = Ok (csvUrl, csvKey)
    ∧ documents (worker F clock stackOf maxErr download extract upload file w).1
        !! customId file = Some d
    ∧ doc_status d = Processed ∧ Status.error d = None
    ∧ csv_url d = csvUrl ∧ csv_key d = csvKey
    ∧ pdf_url d = ufs_url file
    ∧ updated_at d = clock Processed
    ∧ (NoDup (fst <$> pages) → ∀ n t,
         document_pages
           (worker F clock stackOf maxErr download extract upload file w).1
           !! (customId file, n) = Some t
         ↔ (n, t) ∈ pages).
Proof.
  unfold worker.
  pose proof (body_ok F clock download extract upload file w) as Hok.
  destruct (body F clock download extract upload file w) as [w' [[]|e]];
    cbn [fst snd] in *; [|done].
  intros _.
  destruct (Hok eq_refl) as (pages & u & key & tbl & _ & _ & He & Hrep & Hup & ->).
  destruct (pending_row clock file (documents w)) as (d0 & Hd0 & _).
  exists pages, u, key.
  eexists. split; [done|]. split; [done|].
  cbn [documents document_pages].
  split.
  { unfold markDocProcessed, attempt. rewrite lookup_alter_eq, Hd0. done. }
  cbn [doc_status Status.error csv_url csv_key updated_at pdf_url].
  repeat (split; [done|]).
  split.
  { unfold upsertDocPending, attempt, upsert in Hd0.
    cbn [v_payload payloadOf p_custom_id p_pdf_url] in Hd0.
    rewrite lookup_insert_eq in Hd0. by injection Hd0 as <-. }
  split; [done|].
  intros Hnd n t. by apply (replacePages_ok F _ _ _ _ _ _ Hrep).
Qed.

Lemma worker_success_witness :
  ∃ d, documents (worker no_faults clock_0 (λ _, None) 500 None
                    (Ok [(1, lit "Hello")]) upload_ok file_A world_B).1
         !! lit "A" = Some d
       ∧ doc_status d = Processed
       ∧ csv_url d = Some (lit "http://ufs/a.csv").
Proof.
  destruct (worker_success no_faults clock_0 (λ _, None) 500 None
              (Ok [(1, lit "Hello")]) upload_ok file_A world_B eq_refl)
    as (pages & u & key & d & _ & Hup & Hd & Hs & _ & Hu & _).
  exists d. split; [exact Hd|]. split; [exact Hs|].
  rewrite Hu. by injection Hup as <- _.
Defined.

(** X12: when a worker counts its document as failed, wherever the failure
    happened, no artifact reference in [documents] has changed; the record
    of the document is not left [processed] unless both the pending write
    and the failed-state write were refused; and when the failed-state
    write is accepted the record is [failed] with an error text. *)
Theorem worker_failure (F : faults) (clock : status → jsstring)
    (stackOf : Err.error → option jsstring) (maxErr : nat)
    (download : option Err.error) (extract : result (list (nat * jsstring)))
    (upload : jsstring → result (option jsstring * option jsstring))
    (file : sourceFile) (w : world) :
  (worker F clock stackOf maxErr download extract upload file w).2 = false →
  (∀ k, artifactRef
          (documents (worker F clock stackOf maxErr download extract upload file w).1) k
        = artifactRef (documents w) k)
  ∧ (f_pending F = None ∨ f_failed F = None →
     ∃ d, documents (worker F clock stackOf maxErr download extract upload file w).1
            !! customId file = Some d
          ∧ doc_status d ≠ Processed)
  ∧ (f_failed F = None →
     ∃ d msg,
       documents (worker F clock stackOf maxErr download extract upload file w).1
         !! customId file = Some d
       ∧ doc_status d = Failed ∧ Status.error d = Some msg
       ∧ updated_at d = clock Failed).
Proof.
  unfold worker.
  pose proof (body_fail F clock download extract upload file w) as Hfail.
  destruct (body F clock download extract upload file w) as [w' [[]|e]];
    cbn [fst snd] in *; [done|].
  intros _. destruct (Hfail e eq_refl) as [Hrefs Hpend].
  cbn [documents document_pages].
  assert (Hrow : f_failed F = None →
    ∃ d msg, upsertDocFailed (f_failed F) (payloadOf file)
               (shortErr stackOf maxErr e) (clock Failed) (documents w')
               !! customId file = Some d
             ∧ doc_status d = Failed ∧ Status.error d = Some msg
             ∧ updated_at d = clock Failed).
  { intros ->. unfold upsertDocFailed, attempt, upsert.
    cbn [v_payload v_status payloadOf p_custom_id].
    rewrite lookup_insert_eq. by eexists _, _. }
  split; [|split; [|done]].
  - intros k. rewrite <- Hrefs. unfold upsertDocFailed, attempt.
    destruct (f_failed F); [done|]. apply upsert_keeps_refs.
  - destruct (f_failed F) as [msg|] eqn:Hf.
    + intros [Hp|[=]]. destruct (Hpend Hp) as (d & Hd & Hs).
      exists d. split; [done|]. by rewrite Hs.
    + intros _. destruct (Hrow eq_refl) as (d & msg & Hd & Hs & _).
      exists d. split; [done|]. by rewrite Hs.
Qed.

Lemma worker_failure_witness :
  artifactRef
    (documents (worker no_faults clock_0 (λ _, None) 500
                  (Some (Thrown (lit "Download failed 404"))) (Ok []) upload_ok
                  file_A world_B).1) (lit "B")
  = artifactRef (documents world_B) (lit "B").
Proof.
  apply (worker_failure no_faults clock_0 (λ _, None) 500
           (Some (Thrown (lit "Download failed 404"))) (Ok []) upload_ok
           file_A world_B eq_refl).
Defined.

End WorkerMore.

(** ** Tables with any line terminator *)

Module CsvTable.
Import Js Csv CsvFacts.

(** The three line terminators the viewer's parser accepts. *)
Inductive eol := EolLF | EolCR | EolCRLF.

Definition terminator (e : eol) : jsstring :=
  match e with
  | EolLF => [LF]
  | EolCR => [CR]
  | EolCRLF => [CR; LF]
  end.

(** A record as the indexers write it: the escaped fields joined by
    commas. *)
Definition record (fs : list jsstring) : jsstring :=
  joinComma ((λ f, csvEscape (Some f)) <$> fs).

(** Terminated lines, followed by an optional last line without
    terminator. *)
Definition writeLines (lines : list (list jsstring * eol)) : jsstring :=
  concat ((λ l, record l.1 ++ terminator l.2) <$> lines).

Definition writeTable (lines : list (list jsstring * eol))
    (final : option (list jsstring)) : jsstring :=
  writeLines lines ++ from_option record [] final.

(** A row the parser can give back: it has a field, and is not a lone
    empty field. *)
Definition readable (fs : list jsstring) : Prop := fs ≠ [] ∧ fs ≠ [[]].

Lemma record_cons f fs :
  fs ≠ [] → record (f :: fs) = csvEscape (Some f) ++ COMMA :: record fs.
Proof. unfold record. by destruct fs. Qed.

Lemma csvEscape_head s tail c :
  s ≠ [] → head (csvEscape (Some s) ++ tail) = Some c → isSpecial c = true →
  c = DQUOTE.
Proof.
  intros Hne. unfold csvEscape. simpl.
  destruct (needsQuoting s) eqn:E.
  - cbn. intros H _. injection H. by intros ?.
  - destruct s as [|c' r]; [done|]. cbn. intros H Hc. injection H. intros ->.
    apply needsQuoting_false, Forall_cons in E as [E _]. congruence.
Qed.

Lemma record_head fs tail :
  readable fs → head (record fs ++ tail) ≠ Some LF.
Proof.
  intros [Hne Hne']. destruct fs as [|f fs]; [done|].
  destruct (decide (f = [])) as [->|Hf].
  - destruct fs as [|f' fs]; [done|]. by rewrite record_cons.
  - intros H.
    assert (Hh : head (csvEscape (Some f)
                       ++ (match fs with
                           | [] => tail
                           | _ => COMMA :: record fs ++ tail
                           end)) = Some LF).
    { destruct fs as [|f' fs]; [done|].
      by rewrite record_cons, <- app_assoc in H. }
    by apply csvEscape_head in Hh.
Qed.

(** A record followed by any of the three terminators adds one row. *)
Lemma scan_record_eol fs e tail rs r0 :
  fs ≠ [] → head tail ≠ Some LF →
  scan (record fs ++ terminator e ++ tail) (PState rs r0 [] false)
  = scan tail (PState (rs ++ [r0 ++ fs]) [] [] false).
Proof.
  intros Hne Ht. revert r0. induction fs as [|f fs IH]; intros r0; [done|].
  destruct fs as [|f' fs'].
  - unfold record. cbn [fmap list_fmap joinComma].
    rewrite scan_csvEscape; [|done|by destruct e].
    destruct e; cbn [terminator app].
    + done.
    + destruct tail as [|c t]; [done|]. cbn.
      destruct (c =? LF) eqn:E; [|done].
      apply N.eqb_eq in E. by subst c.
    + done.
  - rewrite record_cons, <- app_assoc by done.
    rewrite scan_csvEscape by done.
    cbn [app]. unfold addChars. cbn [rows row field inQuotes app].
    change (scan (COMMA :: ?x) ?st) with (scan x (endField st)).
    unfold endField. cbn [rows row field inQuotes].
    rewrite IH by done. by rewrite <- app_assoc.
Qed.

(** A record at the end of the text stays in the parser's variables. *)
Lemma scan_record_open init l rs r0 :
  scan (record (init ++ [l])) (PState rs r0 [] false)
  = PState rs (r0 ++ init) l false.
Proof.
  revert r0. induction init as [|f init IH]; intros r0.
  - unfold record. cbn [app fmap list_fmap joinComma].
    rewrite <- (app_nil_r (csvEscape _)), scan_csvEscape by done.
    cbn. by rewrite app_nil_r.
  - cbn [app]. rewrite record_cons by (by destruct init).
    rewrite scan_csvEscape by done.
    cbn [app]. unfold addChars. cbn [rows row field inQuotes app].
    change (scan (COMMA :: ?x) ?st) with (scan x (endField st)).
    unfold endField. cbn [rows row field inQuotes].
    rewrite IH. by rewrite <- app_assoc.
Qed.

Lemma scan_writeLines lines tail rs :
  Forall (λ l, readable l.1) lines → head tail ≠ Some LF →
  scan (writeLines lines ++ tail) (PState rs [] [] false)
  = scan tail (PState (rs ++ (fst <$> lines)) [] [] false).
Proof.
  intros Hall Ht. revert rs.
  induction Hall as [|[fs e] rest [Hne Hne'] Hrest IH]; intros rs.
  - cbn. by rewrite app_nil_r.
  - unfold writeLines. rewrite fmap_cons. cbn [concat fst snd].
    fold (writeLines rest). rewrite <- !app_assoc.
    rewrite scan_record_eol; [|done|].
    + rewrite IH. rewrite fmap_cons. cbn [fst app]. by rewrite <- app_assoc.
    + destruct Hrest as [|[fs' e'] rest' Hfs' _]; [done|].
      unfold writeLines. rewrite fmap_cons. cbn [concat fst snd].
      rewrite <- !app_assoc. by apply record_head.
Qed.

Lemma stripBom_id s : head s ≠ Some BOM → stripBom s = s.
Proof.
  destruct s as [|c r]; [done|]. cbn. intros H.
  destruct (c =? BOM) eqn:E; [|done].
  apply N.eqb_eq in E. by subst c.
Qed.

(** X13: the viewer's parser reads back every table written with
    [csvEscape]: records of any width, each line closed by a line feed, a
    carriage return or both, the last line closed or not, come back as the
    same rows and fields, provided every row has a field and is not a lone
    empty field, and the text does not begin with U+FEFF. *)
Theorem parseCsvRows_reads_table
    (lines : list (list jsstring * eol)) (final : option (list jsstring)) :
  Forall (λ l, readable l.1) lines →
  from_option readable True final →
  head (writeTable lines final) ≠ Some BOM →
  parseCsvRows (writeTable lines final)
  = (fst <$> lines) ++ option_list final.
Proof.
  intros Hlines Hfinal Hbom. unfold parseCsvRows.
  rewrite stripBom_id by done. unfold writeTable.
  assert (Hkeep : ∀ l : list (list jsstring),
            Forall readable l → filter (λ r, r ≠ [[]]) l = l).
  { intros l Hl. apply filter_keep_all.
    eapply Forall_impl; [exact Hl|]. by intros r [_ ?]. }
  assert (Hrows : Forall readable (fst <$> lines)) by (by apply Forall_fmap).
  destruct final as [fs|]; cbn [from_option option_list] in *.
  - rewrite scan_writeLines; [|done|by rewrite <- (app_nil_r (record fs)); apply record_head].
    destruct Hfinal as [Hne Hne'].
    destruct (exists_last Hne) as (init & l & ->).
    rewrite scan_record_open. unfold flush. cbn [rows row field].
    assert (Hflush : bool_decide (0 < length l)%nat
                     || bool_decide (0 < length ([] ++ init))%nat = true).
    { destruct l; [|done]. destruct init; [done|]. done. }
    rewrite Hflush. apply Hkeep. cbn [app].
    apply Forall_app. split; [done|]. by constructor.
  - rewrite scan_writeLines by done. cbn [scan]. unfold flush.
    cbn [rows row field length app]. rewrite !app_nil_r.
    change (bool_decide (0 < 0)%nat || bool_decide (0 < 0)%nat) with false.
    cbv iota. by apply Hkeep.
Qed.

Lemma parseCsvRows_reads_table_witness :
  parseCsvRows
    (writeTable [([lit "a"; lit "b,c"], EolCR); ([[]; lit "d"], EolCRLF)]
                (Some [lit "e" ++ [LF]]))
  = [[lit "a"; lit "b,c"]; [[]; lit "d"]; [lit "e" ++ [LF]]].
Proof.
  apply (parseCsvRows_reads_table
           [([lit "a"; lit "b,c"], EolCR); ([[]; lit "d"], EolCRLF)]
           (Some [lit "e" ++ [LF]])).
  - repeat constructor; by vm_compute.
  - split; by vm_compute.
  - by vm_compute.
Defined.

End CsvTable.

(** ** What normalisation does to the visible characters *)

Module TextMore.
Import Js Text TextFacts.
Local Open Scope nat_scope.

Lemma strip_cons_space c s :
  isWhiteSpace c = true → stripWhiteSpace (c :: s) = stripWhiteSpace s.
Proof.
  intros Hc. unfold stripWhiteSpace. rewrite filter_cons_False; [done|].
  rewrite Hc. by intros [].
Qed.

Lemma strip_cons_visible c s :
  isWhiteSpace c = false → stripWhiteSpace (c :: s) = c :: stripWhiteSpace s.
Proof.
  intros Hc. unfold stripWhiteSpace. rewrite filter_cons_True; [done|].
  rewrite Hc. exact I.
Qed.

Lemma strip_trimStart s : stripWhiteSpace (trimStart s) = stripWhiteSpace s.
Proof.
  induction s as [|c r IH]; [done|]. cbn [trimStart].
  destruct (isWhiteSpace c) eqn:Hc; [|done]. by rewrite strip_cons_space.
Qed.

Lemma strip_trim s : stripWhiteSpace (trim s) = stripWhiteSpace s.
Proof.
  unfold trim, trimEnd, stripWhiteSpace.
  rewrite filter_reverse. fold (stripWhiteSpace (trimStart (reverse (trimStart s)))).
  rewrite strip_trimStart. unfold stripWhiteSpace.
  rewrite filter_reverse, reverse_involutive.
  apply strip_trimStart.
Qed.

Lemma strip_crToLf s : stripWhiteSpace (crToLf s) = stripWhiteSpace s.
Proof.
  unfold crToLf. induction s as [|c r IH]; [done|]. rewrite fmap_cons.
  destruct (c =? CR)%N eqn:E.
  - apply N.eqb_eq in E. subst c. by rewrite !strip_cons_space.
  - destruct (isWhiteSpace c) eqn:Hc.
    + by rewrite !strip_cons_space.
    + rewrite !strip_cons_visible by done. by rewrite IH.
Qed.

Lemma strip_ffToLf s : stripWhiteSpace (ffToLf s) = stripWhiteSpace s.
Proof.
  unfold ffToLf. induction s as [|c r IH]; [done|]. rewrite fmap_cons.
  destruct (c =? FF)%N eqn:E.
  - apply N.eqb_eq in E. subst c. by rewrite !strip_cons_space.
  - destruct (isWhiteSpace c) eqn:Hc.
    + by rewrite !strip_cons_space.
    + rewrite !strip_cons_visible by done. by rewrite IH.
Qed.

Lemma strip_crlfToLf s : stripWhiteSpace (crlfToLf s) = stripWhiteSpace s.
Proof.
  induction s as [|c r IH]; [done|]. cbn [crlfToLf].
  assert (Hgen : stripWhiteSpace (c :: crlfToLf r) = stripWhiteSpace (c :: r)).
  { destruct (isWhiteSpace c) eqn:Hc.
    - by rewrite !strip_cons_space.
    - rewrite !strip_cons_visible by done. by rewrite IH. }
  destruct (c =? CR)%N eqn:E; [|done].
  destruct r as [|c' r']; [done|].
  destruct (c' =? LF)%N eqn:E'; [|done].
  apply N.eqb_eq in E, E'. subst c c'.
  cbn [crlfToLf] in IH. change (LF =? CR)%N with false in IH. cbv iota in IH.
  rewrite !(strip_cons_space LF) in IH by done.
  by rewrite !strip_cons_space.
Qed.

Lemma trimStart_head s c :
  head (trimStart s) = Some c → isWhiteSpace c = false.
Proof.
  induction s as [|d r IH]; [done|]. cbn [trimStart].
  destruct (isWhiteSpace d) eqn:Hd; [done|]. cbn. by intros [= <-].
Qed.

Lemma strip_dropNul_le s :
  length (stripWhiteSpace (dropNul s)) ≤ length (stripWhiteSpace s).
Proof.
  unfold dropNul. induction s as [|c r IH]; [done|].
  destruct (decide (c ≠ NUL)) as [Hc|Hc].
  - rewrite filter_cons_True by done.
    destruct (isWhiteSpace c) eqn:Hw.
    + by rewrite !strip_cons_space.
    + rewrite !strip_cons_visible by done. cbn. lia.
  - rewrite filter_cons_False by done.
    apply dec_stable in Hc. subst c.
    rewrite strip_cons_visible by done. cbn. lia.
Qed.

(** X14: normalising a text changes its count of visible characters only
    by the NULs it deletes; the result holds no NUL, form feed or carriage
    return and neither begins nor ends with white space; so a text that is
    meaningful for the OCR and pdftotext variants is meaningful for the
    base variant too. *)
Theorem normalizeText_visible (raw : option jsstring) :
  nonSpaceChars (normalizeText raw) = nonSpaceChars (dropNul (default [] raw))
  ∧ Forall (λ c, c ≠ NUL ∧ c ≠ FF ∧ c ≠ CR) (normalizeText raw)
  ∧ (∀ c, head (normalizeText raw) = Some c → isWhiteSpace c = false)
  ∧ (∀ c, last (normalizeText raw) = Some c → isWhiteSpace c = false)
  ∧ (hasMeaningfulText raw = true → hasMeaningfulText_db raw = true).
Proof.
  assert (Hcount : nonSpaceChars (normalizeText raw)
                   = nonSpaceChars (dropNul (default [] raw))).
  { unfold nonSpaceChars, normalizeText.
    by rewrite strip_trim, strip_crToLf, strip_crlfToLf, strip_ffToLf. }
  split; [done|]. split; [apply normalizeText_plain|].
  split; [|split].
  - unfold normalizeText, trim. intros c.
    rewrite <- trimEnd_keeps_start by apply trimStart_idemp.
    apply trimStart_head.
  - unfold normalizeText, trim, trimEnd. intros c.
    rewrite last_reverse. apply trimStart_head.
  - unfold hasMeaningfulText, hasMeaningfulText_db.
    rewrite !bool_decide_eq_true, Hcount. unfold nonSpaceChars.
    pose proof (strip_dropNul_le (default [] raw)). lia.
Qed.

(** The converse fails: a text of NULs only is meaningful for the base
    variant alone. *)
Example nul_text_meaningful_db_only :
  hasMeaningfulText (Some [NUL]) = false
  ∧ hasMeaningfulText_db (Some [NUL]) = true.
Proof. split; reflexivity. Qed.

End TextMore.

(** ** The identity a worker writes under *)

Module IdentityFacts.
Import Js Catalog CatalogFacts.

Lemma truthy_Some v : truthy v = true → ∃ s, v = Some s ∧ s ≠ [].
Proof. destruct v as [[|c r]|]; try done. intros _. by eexists. Qed.

(** X15: the identity a worker writes under is never empty, nor is the
    file name; for a row that has a [custom_id] or a [ut_key] it is the
    identity the work-set filter looks up, so once that identity is in the
    processed set the row is dropped by a run without [--reprocess]. *)
Theorem customId_matches_filter (file : sourceFile) :
  customId file ≠ []
  ∧ pdfName file ≠ []
  ∧ (truthy (identity file) = true →
     identity file = Some (customId file)
     ∧ ∀ processedIds : gset jsstring,
         customId file ∈ processedIds → keep false processedIds file = false).
Proof.
  unfold customId, pdfName, identity.
  split; [|split].
  - unfold or_else at 1.
    destruct (truthy (or_else (custom_id file) (ut_key file))) eqn:E.
    + apply truthy_Some in E as (s & -> & Hs). done.
    + done.
  - unfold or_else.
    destruct (truthy (file_name file)) eqn:E.
    + apply truthy_Some in E as (s & -> & Hs). done.
    + done.
  - intros Ht. unfold or_else at 2. rewrite Ht.
    destruct (truthy_Some _ Ht) as (s & Hs & Hne).
    rewrite Hs. split; [done|].
    intros processedIds Hin. unfold keep, identity. rewrite Ht, Hs.
    destruct s as [|c r]; [done|]. unfold or_else in Hin.
    cbn [truthy default] in Hin. cbn [negb default].
    by rewrite bool_decide_eq_true_2.
Qed.

Lemma customId_matches_filter_witness :
  keep false {[ lit "A" ]}
    (SourceFile 7 (Some (lit "http://x/a.pdf")) None None None
       (Some (lit "A")) None None None)
  = false.
Proof.
  apply (proj2 (proj2 (proj2 (customId_matches_filter
           (SourceFile 7 (Some (lit "http://x/a.pdf")) None None None
              (Some (lit "A")) None None None))) eq_refl)).
  by apply elem_of_singleton.
Defined.

End IdentityFacts.

(** ** The listing of uploaded files (manifest-driven indexer) *)

Module Listing.
Import Js.

(** An entry of the store's file listing: its [key], its [name], and the
    rest of the object. *)
Record utFile := UtFile {
  f_key : option jsstring;
  f_name : option jsstring;
  f_rest : N
}.

#[global] Instance utFile_eq_dec : EqDecision utFile.
Proof. solve_decision. Defined.

(** [file?.key ? String(file.key) : empty], and the same for the name. *)
Definition keyOf (file : utFile) : jsstring :=
  if truthy (f_key file) then default [] (f_key file) else [].

Definition nameOf (file : utFile) : jsstring :=
  if truthy (f_name file) then default [] (f_name file) else [].

(** [sig = key ? `k:${key}` : `n:${name}`] *)
Definition sigOf (file : utFile) : jsstring :=
  if truthy (Some (keyOf file)) then lit "k:" ++ keyOf file
  else lit "n:" ++ nameOf file.

(** The loop at the end of [listAllUploadThingFiles], with its variables
    [seen] and [unique]. *)
Fixpoint dedupeLoop (all : list utFile) (seen : gset jsstring)
    (unique : list utFile) : list utFile :=
  match all with
  | [] => unique
  | file :: rest =>
      if decide (sigOf file ∈ seen) then dedupeLoop rest seen unique
      else dedupeLoop rest ({[ sigOf file ]} ∪ seen) (unique ++ [file])
  end.

Definition dedupe (all : list utFile) : list utFile := dedupeLoop all ∅ [].

(** [buildFileLookups]: the first file seen under a key, or a name, stays. *)
Definition addLookup (k : jsstring) (file : utFile)
    (m : gmap jsstring utFile) : gmap jsstring utFile :=
  if truthy (Some k) && negb (bool_decide (is_Some (m !! k)))
  then <[k := file]> m else m.

Definition buildFileLookups (files : list utFile)
  : gmap jsstring utFile * gmap jsstring utFile :=
  foldl (λ acc file, (addLookup (keyOf file) file acc.1,
                      addLookup (nameOf file) file acc.2))
        (∅, ∅) files.

End Listing.

Module ListingFacts.
Import Js Listing.

(** The files the loop appends to [unique]. *)
Fixpoint kept (all : list utFile) (seen : gset jsstring) : list utFile :=
  match all with
  | [] => []
  | file :: rest =>
      if decide (sigOf file ∈ seen) then kept rest seen
      else file :: kept rest ({[ sigOf file ]} ∪ seen)
  end.

Lemma dedupeLoop_kept all seen unique :
  dedupeLoop all seen unique = unique ++ kept all seen.
Proof.
  revert seen unique. induction all as [|f r IH]; intros seen unique; cbn.
  - by rewrite app_nil_r.
  - destruct (decide (sigOf f ∈ seen)); [apply IH|].
    rewrite IH. by rewrite <- app_assoc.
Qed.

Lemma kept_sublist all seen : kept all seen `sublist_of` all.
Proof.
  revert seen. induction all as [|f r IH]; intros seen; cbn; [done|].
  destruct (decide (sigOf f ∈ seen)).
  - by apply sublist_cons.
  - by apply sublist_skip.
Qed.

Lemma kept_fresh all seen g : g ∈ kept all seen → sigOf g ∉ seen.
Proof.
  revert seen. induction all as [|f r IH]; intros seen; cbn.
  - by intros ?%elem_of_nil.
  - destruct (decide (sigOf f ∈ seen)); [apply IH|].
    intros [->|Hg]%elem_of_cons; [done|].
    apply IH in Hg. intros Hin. apply Hg, elem_of_union. by right.
Qed.

Lemma kept_NoDup all seen : NoDup (sigOf <$> kept all seen).
Proof.
  revert seen. induction all as [|f r IH]; intros seen; cbn; [constructor|].
  destruct (decide (sigOf f ∈ seen)); [apply IH|].
  rewrite fmap_cons. constructor; [|apply IH].
  intros (g & Hsig & Hg)%list_elem_of_fmap.
  apply kept_fresh in Hg. apply Hg, elem_of_union. left.
  by apply elem_of_singleton.
Qed.

Lemma kept_covers all seen f :
  f ∈ all → sigOf f ∈ seen ∨ ∃ g, g ∈ kept all seen ∧ sigOf g = sigOf f.
Proof.
  revert seen. induction all as [|h r IH]; intros seen.
  - by intros ?%elem_of_nil.
  - cbn. intros [->|Hf]%elem_of_cons.
    + destruct (decide (sigOf h ∈ seen)); [by left|].
      right. exists h. split; [by left|done].
    + destruct (decide (sigOf h ∈ seen)); [by apply IH|].
      destruct (IH ({[ sigOf h ]} ∪ seen) Hf) as [Hin|(g & Hg & Hs)].
      * apply elem_of_union in Hin as [Hin|Hin]; [|by left].
        apply elem_of_singleton in Hin. right. exists h. split; [by left|done].
      * right. exists g. split; [by right|done].
Qed.

Lemma kept_first all seen g :
  g ∈ kept all seen →
  head (filter (λ f, sigOf f = sigOf g) all) = Some g.
Proof.
  revert seen. induction all as [|h r IH]; intros seen; cbn [kept].
  - by intros ?%elem_of_nil.
  - destruct (decide (sigOf h ∈ seen)) as [Hin|Hout].
    + intros Hg. rewrite filter_cons_False; [by eapply IH|].
      intros E. apply kept_fresh in Hg. by rewrite <- E in Hg.
    + intros [->|Hg]%elem_of_cons.
      * by rewrite filter_cons_True.
      * rewrite filter_cons_False; [by eapply IH|].
        intros E. apply kept_fresh in Hg. apply Hg, elem_of_union. left.
        by apply elem_of_singleton.
Qed.

Lemma dedupe_kept (all : list utFile) : dedupe all = kept all ∅.
Proof. unfold dedupe. by rewrite dedupeLoop_kept. Qed.

Lemma dedupe_covers all f :
  f ∈ all → ∃ g, g ∈ dedupe all ∧ sigOf g = sigOf f.
Proof.
  intros Hf. rewrite dedupe_kept.
  destruct (kept_covers all ∅ f Hf) as [Hin|?]; [|done].
  by apply elem_of_empty in Hin.
Qed.

(** X16: the listing returned by [listAllUploadThingFiles] holds each
    signature (the key, or the name when there is no key) once; it keeps
    the order of the pages fetched; every file fetched is represented by a
    file with its signature; and the file kept for a signature is the first
    one fetched with it. *)
Theorem dedupe_first_wins (all : list utFile) :
  NoDup (sigOf <$> dedupe all)
  ∧ dedupe all `sublist_of` all
  ∧ (∀ f, f ∈ all → ∃ g, g ∈ dedupe all ∧ sigOf g = sigOf f)
  ∧ (∀ g, g ∈ dedupe all →
       head (filter (λ f, sigOf f = sigOf g) all) = Some g).
Proof.
  split; [|split; [|split]].
  - rewrite dedupe_kept. apply kept_NoDup.
  - rewrite dedupe_kept. apply kept_sublist.
  - apply dedupe_covers.
  - intros g. rewrite dedupe_kept. apply kept_first.
Qed.

(** *** The two look-up tables *)

Lemma filter_sublist_mono {A} (P : A → Prop) `{∀ x, Decision (P x)} l1 l2 :
  l1 `sublist_of` l2 → filter P l1 `sublist_of` filter P l2.
Proof.
  induction 1 as [|x l1 l2 Hl IH|x l1 l2 Hl IH]; [done| |].
  - rewrite !filter_cons. destruct (decide (P x)); [by apply sublist_skip|done].
  - rewrite filter_cons. destruct (decide (P x)); [by apply sublist_cons|done].
Qed.

Lemma addLookup_lookup k file m k' :
  addLookup k file m !! k'
  = match m !! k' with
    | Some f => Some f
    | None => if bool_decide (k = k' ∧ k ≠ []) then Some file else None
    end.
Proof.
  unfold addLookup. destruct k as [|c r].
  - cbn. destruct (m !! k'); [done|].
    rewrite bool_decide_eq_false_2; [done|]. by intros [_ ?].
  - cbn [truthy andb].
    destruct (decide (c :: r = k')) as [<-|Hne].
    + destruct (m !! (c :: r)) as [f|] eqn:E.
      * rewrite bool_decide_eq_true_2 by done. cbn. by rewrite E.
      * rewrite bool_decide_eq_false_2 by (by intros [? ?]). cbn.
        rewrite lookup_insert_eq. by rewrite bool_decide_eq_true_2.
    + assert (Hk : (if negb (bool_decide (is_Some (m !! (c :: r))))
                    then <[c :: r := file]> m else m) !! k' = m !! k').
      { destruct (negb _); [|done]. by rewrite lookup_insert_ne. }
      rewrite Hk. destruct (m !! k'); [done|].
      rewrite bool_decide_eq_false_2; [done|]. by intros [? _].
Qed.

Lemma lookups_from files bk bn k :
  (foldl (λ acc file, (addLookup (keyOf file) file acc.1,
                       addLookup (nameOf file) file acc.2)) (bk, bn) files).1 !! k
  = match bk !! k with
    | Some f => Some f
    | None => head (filter (λ f, keyOf f = k ∧ k ≠ []) files)
    end
  ∧ (foldl (λ acc file, (addLookup (keyOf file) file acc.1,
                         addLookup (nameOf file) file acc.2)) (bk, bn) files).2 !! k
    = match bn !! k with
      | Some f => Some f
      | None => head (filter (λ f, nameOf f = k ∧ k ≠ []) files)
      end.
Proof.
  revert bk bn. induction files as [|file rest IH]; intros bk bn.
  - cbn. by destruct (bk !! k), (bn !! k).
  - cbn [foldl fst snd]. destruct (IH (addLookup (keyOf file) file bk)
                                       (addLookup (nameOf file) file bn)) as [H1 H2].
    rewrite H1, H2, !addLookup_lookup. split.
    + destruct (bk !! k); [done|]. case_bool_decide as Hk.
      * rewrite filter_cons_True; [done|]. by destruct Hk as [<- ?].
      * rewrite filter_cons_False; [done|]. intros [<- ?]. by apply Hk.
    + destruct (bn !! k); [done|]. case_bool_decide as Hk.
      * rewrite filter_cons_True; [done|]. by destruct Hk as [<- ?].
      * rewrite filter_cons_False; [done|]. intros [<- ?]. by apply Hk.
Qed.

Lemma sigOf_key f g : keyOf f ≠ [] → keyOf g = keyOf f → sigOf g = sigOf f.
Proof.
  intros Hne E. unfold sigOf. rewrite E.
  by destruct (keyOf f).
Qed.

Lemma sigOf_key_inv f g : keyOf f ≠ [] → sigOf g = sigOf f → keyOf g = keyOf f.
Proof.
  unfold sigOf. intros Hne.
  destruct (keyOf f) as [|c r] eqn:Ef; [done|].
  destruct (keyOf g) as [|c' r'] eqn:Eg; cbn [truthy].
  - change (lit "n:") with [110%N; 58%N]. change (lit "k:") with [107%N; 58%N].
    by intros [=].
  - by intros ?%(inj (app _)).
Qed.

(** X17: in the tables built by [buildFileLookups] a non-empty key, or
    name, leads to the first listed file that carries it, and the empty
    string leads nowhere; the table by key is the same whether it is built
    from the raw listing or from the de-duplicated one. *)
Theorem buildFileLookups_first (files : list utFile) (k : jsstring) :
  (buildFileLookups files).1 !! k
  = head (filter (λ f, keyOf f = k ∧ k ≠ []) files)
  ∧ (buildFileLookups files).2 !! k
    = head (filter (λ f, nameOf f = k ∧ k ≠ []) files)
  ∧ (buildFileLookups files).1 !! [] = None
  ∧ (buildFileLookups (dedupe files)).1 !! k = (buildFileLookups files).1 !! k.
Proof.
  assert (Hk : ∀ l k', (buildFileLookups l).1 !! k'
                       = head (filter (λ f, keyOf f = k' ∧ k' ≠ []) l)).
  { intros l k'. unfold buildFileLookups.
    destruct (lookups_from l ∅ ∅ k') as [H _]. by rewrite H, lookup_empty. }
  split; [apply Hk|]. split.
  { unfold buildFileLookups.
    destruct (lookups_from files ∅ ∅ k) as [_ H]. by rewrite H, lookup_empty. }
  split.
  { rewrite Hk. induction files as [|f r IH]; [done|].
    rewrite filter_cons_False; [done|]. by intros [_ ?]. }
  rewrite !Hk.
  assert (Hnd : NoDup (sigOf <$> dedupe files))
    by (rewrite dedupe_kept; apply kept_NoDup).
  assert (Hsub : dedupe files `sublist_of` files)
    by (rewrite dedupe_kept; apply kept_sublist).
  pose proof (dedupe_covers files) as Hcov.
  assert (Hfirst : ∀ g, g ∈ dedupe files →
            head (filter (λ f, sigOf f = sigOf g) files) = Some g)
    by (intros g; rewrite dedupe_kept; apply kept_first).
  destruct (head (filter (λ f, keyOf f = k ∧ k ≠ []) files)) as [f|] eqn:E.
  - apply head_Some in E as (tl & E).
    assert (Hf : f ∈ filter (λ f, keyOf f = k ∧ k ≠ []) files)
      by (rewrite E; by left).
    apply list_elem_of_filter in Hf as [[Hkf Hne] Hf].
    destruct (Hcov f Hf) as (g & Hg & Hs).
    assert (Hkg : keyOf g = keyOf f).
    { apply sigOf_key_inv; [by rewrite Hkf|done]. }
    pose proof (Hfirst g Hg) as Hh.
    assert (Hsame : filter (λ f0, sigOf f0 = sigOf g) files
                    = filter (λ f0, keyOf f0 = k ∧ k ≠ []) files).
    { apply list_filter_iff. intros x. split.
      - intros Hx. split; [|done]. rewrite <- Hkf, <- Hkg.
        apply sigOf_key_inv; [by rewrite Hkg, Hkf|done].
      - intros [Hx _]. apply sigOf_key; [by rewrite Hkg, Hkf|].
        by rewrite Hx, Hkg, Hkf. }
    rewrite Hsame, E in Hh. cbn in Hh. injection Hh as <-.
    assert (Hd : ∃ tl', filter (λ f0, keyOf f0 = k ∧ k ≠ []) (dedupe files)
                        = f :: tl').
    { assert (Hsub' : filter (λ f0, keyOf f0 = k ∧ k ≠ []) (dedupe files)
                      `sublist_of` f :: tl).
      { rewrite <- E. by apply filter_sublist_mono. }
      assert (Hin : f ∈ filter (λ f0, keyOf f0 = k ∧ k ≠ []) (dedupe files)).
      { apply list_elem_of_filter. by split. }
      destruct (filter (λ f0, keyOf f0 = k ∧ k ≠ []) (dedupe files))
        as [|x tl'] eqn:Ed; [by apply elem_of_nil in Hin|].
      exists tl'. f_equal.
      assert (Hnd' : NoDup (sigOf <$> x :: tl')).
      { rewrite <- Ed. eapply sublist_NoDup; [exact Hnd|].
        apply (fmap_sublist sigOf), sublist_filter. }
      assert (Hx : x ∈ filter (λ f0, keyOf f0 = k ∧ k ≠ []) (dedupe files))
        by (rewrite Ed; by left).
      apply list_elem_of_filter in Hx as [[Hkx _] Hx].
      apply (ExtractionFacts.NoDup_fmap_elem_eq sigOf (x :: tl')); [done|by left|done|].
      apply sigOf_key; [by rewrite Hkf|by rewrite Hkx, Hkf]. }
    destruct Hd as (tl' & ->). done.
  - apply head_None in E.
    assert (Hnil : filter (λ f0, keyOf f0 = k ∧ k ≠ []) (dedupe files) = []).
    { apply sublist_nil_r. rewrite <- E. by apply filter_sublist_mono. }
    by rewrite Hnil.
Qed.

End ListingFacts.

(** ** The selected documents of a search request *)

Module Search.
Import Js Csv.

(** [s.split(comma)], with [cur] the piece being collected. *)
Fixpoint split_go (s : jsstring) (cur : jsstring) : list jsstring :=
  match s with
  | [] => [cur]
  | c :: r => if c =? COMMA then cur :: split_go r [] else split_go r (cur ++ [c])
  end.

Definition splitComma (s : jsstring) : list jsstring := split_go s [].

(** The query value [raw]: absent, one string, or several. *)
Inductive queryValue :=
| QString (s : jsstring)
| QArray (l : list jsstring).

(** [parseGranthIds(raw)] *)
Definition parseGranthIds (raw : option queryValue) : list jsstring :=
  match raw with
  | None => []
  | Some (QString s) =>
      if truthy (Some s)
      then filter (λ v, truthy (Some v)) (trim <$> splitComma s)
      else []
  | Some (QArray l) => filter (λ v, truthy (Some v)) (trim <$> l)
  end.

(** What the search page sends: [selectedCustomIds.join(comma)]. *)
Definition granthsParam (selectedCustomIds : list jsstring) : jsstring :=
  joinComma selectedCustomIds.

End Search.

Module SearchFacts.
Import Js Csv TextFacts Search.

Lemma split_go_plain s rest cur :
  COMMA ∉ s → split_go (s ++ rest) cur = split_go rest (cur ++ s).
Proof.
  revert cur. induction s as [|c r IH]; intros cur Hs.
  - by rewrite app_nil_r.
  - apply not_elem_of_cons in Hs as [Hc Hr]. cbn [app split_go].
    assert (E : (c =? COMMA) = false) by (apply N.eqb_neq; congruence).
    rewrite E, IH by done. by rewrite <- app_assoc.
Qed.

Lemma split_go_join ids cur :
  ids ≠ [] → Forall (λ i, COMMA ∉ i) ids →
  ∃ hd tl, ids = hd :: tl ∧ split_go (joinComma ids) cur = (cur ++ hd) :: tl.
Proof.
  intros Hne Hall. revert cur.
  induction Hall as [|f fs Hf Hfs IH]; intros cur; [done|].
  exists f, fs. split; [done|].
  destruct fs as [|f' fs'].
  - cbn [joinComma]. rewrite <- (app_nil_r f) at 1.
    by rewrite split_go_plain.
  - change (joinComma (f :: f' :: fs')) with (f ++ COMMA :: joinComma (f' :: fs')).
    rewrite split_go_plain by done. cbn [split_go].
    change (COMMA =? COMMA) with true. cbv iota.
    destruct (IH ltac:(done) []) as (hd & tl & [= <- <-] & ->). done.
Qed.

Lemma split_go_no_comma s cur :
  COMMA ∉ cur → Forall (λ i, COMMA ∉ i) (split_go s cur).
Proof.
  revert cur. induction s as [|c r IH]; intros cur Hcur; cbn [split_go].
  - by constructor.
  - destruct (c =? COMMA) eqn:E.
    + constructor; [done|]. apply IH, not_elem_of_nil.
    + apply IH. apply N.eqb_neq in E.
      rewrite elem_of_app, list_elem_of_singleton. intros [?|?]; [done|].
      by subst c.
Qed.

Lemma trim_no_comma s : COMMA ∉ s → COMMA ∉ trim s.
Proof.
  intros Hs Hin.
  assert (H : Forall (λ c, c ≠ COMMA) (trim s)).
  { apply trim_Forall, Forall_forall. intros c Hc ->. done. }
  rewrite Forall_forall in H. by apply (H _ Hin).
Qed.

(** X18: every identifier [parseGranthIds] returns is non-empty and has no
    white space at either end, and none taken from a single string holds a
    comma; the list the search page sends, joined by commas, is read back
    unchanged when its identifiers are non-empty, trimmed and free of
    commas. *)
Theorem parseGranthIds_reads_selection :
  (∀ raw, Forall (λ i, i ≠ [] ∧ trim i = i) (parseGranthIds raw))
  ∧ (∀ s, Forall (λ i, COMMA ∉ i) (parseGranthIds (Some (QString s))))
  ∧ (∀ ids, Forall (λ i, i ≠ [] ∧ trim i = i ∧ COMMA ∉ i) ids →
       parseGranthIds (Some (QString (granthsParam ids))) = ids).
Proof.
  assert (Hclean : ∀ l, Forall (λ i, i ≠ [] ∧ trim i = i)
                          (filter (λ v, truthy (Some v)) (trim <$> l))).
  { intros l. apply Forall_forall. intros i Hi.
    apply list_elem_of_filter in Hi as [Ht Hi].
    apply list_elem_of_fmap in Hi as (x & -> & _).
    split; [by destruct (trim x)|apply trim_idemp]. }
  split; [|split].
  - intros [[s|l]|]; cbn [parseGranthIds]; [|done|constructor].
    destruct (truthy (Some s)); [done|constructor].
  - intros s. cbn [parseGranthIds].
    destruct (truthy (Some s)); [|constructor].
    apply Forall_forall. intros i Hi.
    apply list_elem_of_filter in Hi as [_ Hi].
    apply list_elem_of_fmap in Hi as (x & -> & Hx).
    apply trim_no_comma.
    pose proof (split_go_no_comma s [] (not_elem_of_nil _)) as Hall.
    rewrite Forall_forall in Hall. by apply Hall.
  - intros ids Hids. unfold granthsParam. cbn [parseGranthIds].
    destruct ids as [|f fs]; [done|].
    assert (Hcomma : Forall (λ i, COMMA ∉ i) (f :: fs)).
    { eapply Forall_impl; [exact Hids|]. by intros i (_ & _ & ?). }
    destruct (split_go_join (f :: fs) [] ltac:(done) Hcomma)
      as (hd & tl & [= <- <-] & Hsplit).
    assert (Htruthy : truthy (Some (joinComma (f :: fs))) = true).
    { apply Forall_cons in Hids as [(Hf & _) _].
      destruct f as [|c r]; [done|]. by destruct fs. }
    rewrite Htruthy. unfold splitComma. rewrite Hsplit. cbn [app].
    assert (Htrim : trim <$> f :: fs = f :: fs).
    { clear -Hids. induction Hids as [|i r (_ & Hi & _) Hr IH]; [done|].
      rewrite fmap_cons. by rewrite Hi, IH. }
    rewrite Htrim. apply CsvFacts.filter_keep_all.
    eapply Forall_impl; [exact Hids|].
    intros i (Hi & _ & _). by destruct i.
Qed.

(** An identifier that holds a comma is not read back: the request selects
    two identifiers that were never chosen. *)
Example parseGranthIds_comma :
  parseGranthIds (Some (QString (granthsParam [lit "a,b__OCR"])))
  = [lit "a"; lit "b__OCR"].
Proof. reflexivity. Qed.

End SearchFacts.

(** ** The identity derived from a manifest path *)

Module Manifest.
Import Js.

Definition BACKSLASH : jschar := 92.
Definition SLASH : jschar := 47.
Definition SPACE : jschar := 32.
Definition UNDERSCORE : jschar := 95.

(** [normalizePathForCustomId(originalRel)]: backslashes become slashes,
    slashes become two underscores, spaces become one, and [__OCR] is
    appended. *)
Definition normalizePathForCustomId (originalRel : jsstring) : jsstring :=
  ((λ c, if c =? SPACE then UNDERSCORE else c)
     <$> (((λ c, if c =? BACKSLASH then SLASH else c) <$> originalRel)
            ≫= (λ c, if c =? SLASH then [UNDERSCORE; UNDERSCORE] else [c])))
  ++ lit "__OCR".

End Manifest.

Module ManifestFacts.
Import Js Manifest.
Local Open Scope nat_scope.

(** X19: the identity derived from a manifest path holds no backslash,
    slash or space, ends with [__OCR], and is longer than the path by five
    plus the number of its separators. *)
Theorem normalizePathForCustomId_clean (originalRel : jsstring) :
  Forall (λ c, c ≠ BACKSLASH ∧ c ≠ SLASH ∧ c ≠ SPACE)
    (normalizePathForCustomId originalRel)
  ∧ lit "__OCR" `suffix_of` normalizePathForCustomId originalRel
  ∧ length (normalizePathForCustomId originalRel)
    = length originalRel
      + length (filter (λ c, c = BACKSLASH ∨ c = SLASH) originalRel) + 5.
Proof.
  unfold normalizePathForCustomId. split; [|split].
  - apply Forall_app. split; [|by repeat constructor].
    induction originalRel as [|c r IH]; [constructor|].
    rewrite fmap_cons, bind_cons, fmap_app. apply Forall_app. split; [|done].
    destruct (c =? BACKSLASH)%N eqn:E1.
    + change (SLASH =? SLASH)%N with true. cbv iota. by repeat constructor.
    + destruct (c =? SLASH)%N eqn:E2; [by repeat constructor|].
      rewrite list_fmap_singleton. constructor; [|constructor].
      destruct (c =? SPACE)%N eqn:E3; [done|].
      apply N.eqb_neq in E1, E2, E3. done.
  - by apply suffix_app_r.
  - rewrite length_app, length_fmap.
    change (length (lit "__OCR")) with 5. f_equal.
    induction originalRel as [|c r IH]; [done|].
    rewrite fmap_cons, bind_cons, length_app, IH. cbn [length].
    destruct (c =? BACKSLASH)%N eqn:E1.
    + apply N.eqb_eq in E1. subst c.
      rewrite filter_cons_True by (by left). cbn. lia.
    + destruct (c =? SLASH)%N eqn:E2.
      * apply N.eqb_eq in E2. subst c.
        rewrite filter_cons_True by (by right). cbn. lia.
      * apply N.eqb_neq in E1, E2.
        rewrite filter_cons_False by (by intros [?|?]). cbn. lia.
Qed.

(** Two manifest paths can share an identity. *)
Example normalizePathForCustomId_collision :
  normalizePathForCustomId (lit "a b.pdf") = normalizePathForCustomId (lit "a_b.pdf")
  ∧ normalizePathForCustomId (lit "x/y.pdf") = normalizePathForCustomId (lit "x__y.pdf").
Proof. split; reflexivity. Qed.

End ManifestFacts.

(** ** The reference an upload returns *)

Module UploadMore.
Import Js Err Upload.

(** X20: when [uploadCsv] returns after the store answered with an error,
    the URL it returns is not null if the application id is known; it is
    null only when the look-up found a key without a URL and there is no
    application id; and the key it returns is the one the look-up found, or
    null when the reference was synthesized from the application id. *)
Theorem uploadCsv_error_reference (text csvCustomId : jsstring)
    (look : lookupOutcome) (appId csvUrl csvKey : option jsstring) :
  uploadCsv (UploadError text) look csvCustomId appId = Ok (csvUrl, csvKey) →
  (truthy appId = true → csvUrl ≠ None)
  ∧ (csvUrl = None →
     truthy appId = false ∧ look = LookupHit None csvKey ∧ truthy csvKey = true)
  ∧ (usable look = false →
     isConflict text = true
     ∧ csvUrl = Some (ufsUrlOf (default [] appId) csvCustomId)
     ∧ csvKey = None)
  ∧ (usable look = true → ∃ url, look = LookupHit url csvKey).
Proof.
  unfold uploadCsv, usable.
  destruct look as [| |url key].
  - destruct (isConflict text) eqn:Hc, (truthy appId) eqn:Ha; cbn [andb];
      try done.
    intros [= <- <-]. by repeat split.
  - destruct (isConflict text) eqn:Hc, (truthy appId) eqn:Ha; cbn [andb];
      try done.
    intros [= <- <-]. by repeat split.
  - destruct (truthy url || truthy key) eqn:Hu.
    + intros [= <- <-]. split; [|split; [|split]].
      * intros Ha. rewrite Ha. by destruct url.
      * destruct url as [u|]; [done|]. cbn [nullish].
        destruct (truthy appId); [done|]. intros _. by repeat split.
      * done.
      * intros _. by exists url.
    + destruct (isConflict text) eqn:Hc, (truthy appId) eqn:Ha; cbn [andb];
        try done.
      intros [= <- <-]. by repeat split.
Qed.

Lemma uploadCsv_error_reference_witness :
  Some (ufsUrlOf (lit "app") (lit "A__pages_csv_ocr500")) ≠ None.
Proof.
  apply (proj1 (uploadCsv_error_reference (lit "409 Conflict")
                  (lit "A__pages_csv_ocr500") LookupNoHit (Some (lit "app"))
                  (Some (ufsUrlOf (lit "app") (lit "A__pages_csv_ocr500")))
                  None eq_refl)).
  reflexivity.
Defined.

End UploadMore.
